(** * Hexagon-1 solver: the packed puzzle state, its moves and the search

    A shallow embedding of [Puzzle.h], [Puzzle.cpp] and [main.cpp].

    - A [Row] ([__uint128_t]) is a [Z] in [[0, 2^128)]; every operation that
      can leave that range in C++ wraps, and the wrap is written out.
    - [int] and [int_fast32_t] values are [Z]; [%] is the truncating
      remainder [Z.rem] and [/] is [Z.quot].
    - A [Puzzle] is a mutable object: its methods are state transformers
      that either return or throw, and the object keeps whatever state it
      had when the exception left the method. *)

From Stdlib Require Import String ZArith Lia List Bool Permutation.
Import ListNotations.
Local Open Scope Z_scope.

(** ** Constants of [class Puzzle] *)

Definition Row := Z.

Definition SLOT_SIZE : Z := 6.
Definition SLOTS_PER_ROW : Z := 18.
Definition SLOTS_PER_HALF : Z := Z.quot SLOTS_PER_ROW 2.
Definition ROW_BITS : Z := SLOTS_PER_ROW * SLOT_SIZE.
Definition TOTAL_BITS : Z := 128.
Definition HALF_BITS : Z := (Z.quot SLOTS_PER_ROW 2) * SLOT_SIZE.

(** Truncation of a mathematical integer to the 128 bits of a [Row]. *)
Definition wrap128 (x : Z) : Row := x mod 2 ^ TOTAL_BITS.

(** [static_cast<Row>(hi) << 64 | lo], the way the header spells its
    128-bit literals. *)
Definition row_literal (hi lo : Z) : Row := Z.lor (wrap128 (Z.shiftl hi 64)) lo.

(** [~x] on a [Row]. *)
Definition not128 (x : Row) : Row := Z.lxor x (Z.ones TOTAL_BITS).

Definition SLOT_MASK : Row := wrap128 (wrap128 (Z.shiftl 1 SLOT_SIZE) - 1).
Definition ROW_MASK : Row := wrap128 (wrap128 (Z.shiftl 1 ROW_BITS) - 1).

Definition SOLVED_TOP : Row := row_literal 0x000000510834C415 0x51875C825928B6CC.
Definition SOLVED_BOTTOM : Row := row_literal 0x000009a5d648f38a 0x1c6cafbaa9e689f7.

Definition HALF_MASK : Row :=
  wrap128 (Z.shiftl (wrap128 (wrap128 (Z.shiftl 1 HALF_BITS) - 1)) (ROW_BITS - HALF_BITS)).

Definition TOP_CUBE_SHAPE : Row := row_literal 0x0000000004000100 0x0040001000040001.
Definition BOTTOM_CUBE_SHAPE : Row := row_literal 0x0000004000100004 0x0001000040001000.
Definition SLICE_MASK : Row := row_literal 0x0000040000000000 0x0010000000000000.
Definition ROW_ORIENTATION_MASK : Row := row_literal 0x0000082082082082 0x0820820820820820.

(** The two well-formedness conditions used below: a value of type [Row],
    and a row whose bits above position 107 are all zero. *)
Definition is_row (r : Z) : Prop := 0 <= r < 2 ^ TOTAL_BITS.
Definition row_clean (r : Z) : Prop := 0 <= r < 2 ^ ROW_BITS.

(** ** Turn amounts and packed moves *)

Definition wrapPositive (turns : Z) : Z :=
  Z.rem (Z.rem turns SLOTS_PER_ROW + SLOTS_PER_ROW) SLOTS_PER_ROW.

Definition wrapNegative (turns : Z) : Z :=
  Z.rem (wrapPositive turns + SLOTS_PER_HALF - 1) SLOTS_PER_ROW - (SLOTS_PER_HALF - 1).

(** The implicit conversion of an [int_fast32_t] argument to the [int]
    parameter of [wrapPositive]. *)
Definition to_int (x : Z) : Z := (x + 2 ^ 31) mod 2 ^ 32 - 2 ^ 31.

Definition encodeMove (topTurns bottomTurns : Z) : Z :=
  Z.lor (Z.shiftl (wrapPositive (to_int topTurns)) SLOT_SIZE)
        (wrapPositive (to_int bottomTurns)).

Definition decodeMove (move : Z) : Z * Z :=
  (Z.land (Z.shiftr move SLOT_SIZE) (Z.shiftl 1 SLOT_SIZE - 1),
   Z.land move (Z.shiftl 1 SLOT_SIZE - 1)).

(** ** Rows and puzzles *)

Record Puzzle : Type := mkPuzzle { top : Row; bottom : Row }.

(** A method of the mutable [Puzzle] object. *)
Inductive result (A : Type) : Type :=
| Returns (a : A)
| Throws (what : string).
Arguments Returns {A} a.
Arguments Throws {A} what.

Definition method (A : Type) : Type := Puzzle -> result A * Puzzle.

Definition bind {A B : Type} (m : method A) (k : A -> method B) : method B :=
  fun p =>
    match m p with
    | (Returns a, p') => k a p'
    | (Throws what, p') => (Throws what, p')
    end.

Notation "m ;; k" := (bind m (fun _ => k)) (at level 61, right associativity).

Definition threw {A : Type} (r : result A) : bool :=
  match r with Returns _ => false | Throws _ => true end.

(** [Puzzle::Puzzle()]: the solved puzzle. *)
Definition Puzzle_default : Puzzle := mkPuzzle SOLVED_TOP SOLVED_BOTTOM.

Definition clone (p : Puzzle) : Puzzle := mkPuzzle (top p) (bottom p).

(** ** Predicates *)

Definition cubeShape (p : Puzzle) : bool :=
  (Z.land (top p) TOP_CUBE_SHAPE =? 0) && (Z.land (bottom p) BOTTOM_CUBE_SHAPE =? 0).

Definition canSlice (p : Puzzle) : bool :=
  (Z.land (top p) SLICE_MASK =? 0) && (Z.land (bottom p) SLICE_MASK =? 0).

Definition canSliceTop (p : Puzzle) : bool := Z.land (top p) SLICE_MASK =? 0.

Definition canSliceBottom (p : Puzzle) : bool := Z.land (bottom p) SLICE_MASK =? 0.

Definition isRowOrientationSolved (p : Puzzle) : bool :=
  (Z.land (top p) ROW_ORIENTATION_MASK =? 0)
  && (Z.land (not128 (bottom p)) ROW_ORIENTATION_MASK =? 0).

Definition isSolvedByMatches (p : Puzzle) (topMatch topMask bottomMatch bottomMask : Row) : bool :=
  if negb (cubeShape p) then false
  else if negb (isRowOrientationSolved p) then false
  else (Z.land (top p) topMask =? Z.land topMatch topMask)
       && (Z.land (bottom p) bottomMask =? Z.land bottomMatch bottomMask).

Definition isSolved (p : Puzzle) : bool :=
  (top p =? SOLVED_TOP) && (bottom p =? SOLVED_BOTTOM).

Definition isTopSolved (p : Puzzle) : bool := top p =? SOLVED_TOP.

Definition isBottomSolved (p : Puzzle) : bool := bottom p =? SOLVED_BOTTOM.

(** ** Slice *)

Definition slice_unavailable : string :=
  "Cannot perform a slice operation if a slice move is currently unavailable."%string.

Definition slice : method unit :=
  fun p =>
    if negb (canSlice p) then (Throws slice_unavailable, p)
    else
      let topHalf := Z.land (top p) HALF_MASK in
      let bottomHalf := Z.land (bottom p) HALF_MASK in
      let top' := Z.lor (Z.land (top p) (not128 HALF_MASK)) bottomHalf in
      let bottom' := Z.lor (Z.land (bottom p) (not128 HALF_MASK)) topHalf in
      (Returns tt, mkPuzzle top' bottom').

(** The row a successful [slice] leaves in place of [t] when the other
    row is [b]. *)
Definition swap_top (t b : Row) : Row :=
  Z.lor (Z.land t (not128 HALF_MASK)) (Z.land b HALF_MASK).

(** The turn amounts at which [turnRow] shifts within the width of a row:
    zero, where it returns at once, and the amounts that are not a multiple
    of 18.  At the other multiples of 18 it evaluates [row << 128]. *)
Definition shifts_in_range (slots : Z) : Prop := slots = 0 \/ slots mod 18 <> 0.

Definition puzzle_clean (p : Puzzle) : Prop := row_clean (top p) /\ row_clean (bottom p).

(** ** The formatter's first loop

    [std::vector::operator[]] has no result outside the vector: [vec_at]
    is [None] there, and so is the loop. *)

Definition vec_at (v : list Z) (i : Z) : option Z :=
  if (0 <=? i) && (i <? Z.of_nat (length v)) then nth_error v (Z.to_nat i) else None.

Definition push_back (v : list Z) (x : Z) : list Z := v ++ [x].

(** One [fuel] per iteration of [for (int i = 0; i <= moves.size(); ++i)];
    the result is the vector [ignoreZeroes] when the loop is left. *)
Fixpoint ignoreZeroes_loop (moves : list Z) (fuel : nat)
         (i sliceParity : Z) (ignoreZeroes : list Z) : option (list Z) :=
  match fuel with
  | O => if i <=? Z.of_nat (length moves) then None else Some ignoreZeroes
  | S fuel' =>
      if negb (i <=? Z.of_nat (length moves)) then Some ignoreZeroes
      else if i =? Z.of_nat (length moves) then
        if Z.rem sliceParity 2 =? 1 then
          match vec_at moves (i - 1) with
          | Some prev => Some (push_back ignoreZeroes prev)
          | None => None
          end
        else Some ignoreZeroes
      else
        match vec_at moves i with
        | None => None
        | Some m =>
            if m =? 0 then ignoreZeroes_loop moves fuel' (i + 1) (sliceParity + 1) ignoreZeroes
            else if Z.rem sliceParity 2 =? 1 then
              match vec_at moves (i - 1) with
              | Some prev =>
                  ignoreZeroes_loop moves fuel' (i + 1) 0 (push_back (push_back ignoreZeroes prev) m)
              | None => None
              end
            else ignoreZeroes_loop moves fuel' (i + 1) 0 (push_back ignoreZeroes m)
        end
  end.

Definition formatMoves_ignoreZeroes (moves : list Z) : option (list Z) :=
  ignoreZeroes_loop moves (S (length moves)) 0 0 [].

(** The first loop as the specification words it: after an odd run of
    no-ops the prior real move is emitted once more. *)
Fixpoint reemit_prior_real (prior : list Z) (odd_run : bool) (moves : list Z) : list Z :=
  match moves with
  | [] => if odd_run then prior else []
  | m :: rest =>
      if m =? 0 then reemit_prior_real prior (negb odd_run) rest
      else (if odd_run then prior else []) ++ m :: reemit_prior_real [m] false rest
  end.

(** The first loop as a function on lists: a run of no-ops leaves one
    no-op when it is odd and nothing when it is even. *)
Fixpoint collapse_noop_runs (odd_run : bool) (moves : list Z) : list Z :=
  match moves with
  | [] => if odd_run then [0] else []
  | m :: rest =>
      if m =? 0 then collapse_noop_runs (negb odd_run) rest
      else (if odd_run then [0] else []) ++ m :: collapse_noop_runs false rest
  end.

(** ** The search *)

Definition MOVES : list Z := [0; 3; 15; 6; 12; 9; 1; 17; 2].

(** What a call of the search does to the control flow: it returns, it
    ends the process through [checkSolved] (with the arguments handed to
    [formatMoves]), or an exception leaves it. *)
Inductive control : Type :=
| Continue
| Exit (moves : list Z) (endsOnSlice : bool)
| Uncaught (what : string).

Definition and_then (c k : control) : control :=
  match c with
  | Continue => k
  | _ => c
  end.

Notation "c >>> k" := (and_then c k) (at level 62, right associativity).

Definition uncaught (c : control) : bool :=
  match c with
  | Uncaught _ => true
  | _ => false
  end.

Fixpoint for_each {A : Type} (l : list A) (body : A -> control) : control :=
  match l with
  | [] => Continue
  | x :: l' => body x >>> for_each l' body
  end.

Definition checkSolved (puzzle : Puzzle) (moves : list Z) (endsOnSlice : bool) : control :=
  if cubeShape puzzle && isRowOrientationSolved puzzle
  then Exit moves endsOnSlice
  else Continue.

Section Shifts.

(** [x << n] on a [Row] is undefined in C++ as soon as [n] is not below
    128.  The value such a shift yields is taken from [shl_oob], so that
    whatever is proved for every [shl_oob] holds on every platform. *)
Variable shl_oob : Row -> Z -> Z.

Definition shl128 (x : Row) (n : Z) : Row :=
  if (0 <=? n) && (n <? TOTAL_BITS)
  then wrap128 (Z.shiftl x n)
  else wrap128 (shl_oob x n).

Definition turnRow (row : Row) (slots : Z) : Row :=
  if slots =? 0 then row
  else
    let shift := wrapPositive slots * SLOT_SIZE in
    let tail := Z.shiftr (shl128 row (TOTAL_BITS - shift)) (TOTAL_BITS - ROW_BITS) in
    let next := Z.lor (Z.shiftr row shift) tail in
    Z.land next ROW_MASK.

Definition turn (topTurns bottomTurns : Z) : method unit :=
  fun p => (Returns tt, mkPuzzle (turnRow (top p) topTurns) (turnRow (bottom p) bottomTurns)).

Definition move (topTurns bottomTurns : Z) : method unit :=
  turn topTurns bottomTurns ;; slice.

(** [move(moves, topTurns, bottomTurns)]: the list is the caller's. *)
Definition move_logged (moves : list Z) (topTurns bottomTurns : Z) : method (list Z) :=
  move topTurns bottomTurns ;;
  (fun p => (Returns (push_back moves (encodeMove topTurns bottomTurns)), p)).

(** The loop over [b], which [solve] and the tasks of [solveMultithread]
    spell out identically; [next] is the recursive call that ends it. *)
Definition bottom_loop (next : Puzzle -> list Z -> control)
           (topNext : Puzzle) (a : Z) (moves : list Z) : control :=
  for_each MOVES (fun b =>
    let bottomNext := snd (turn 0 (to_int b) (clone topNext)) in
    if negb (canSliceBottom bottomNext) then Continue
    else
      let nextMoves := push_back moves (encodeMove a b) in
      checkSolved bottomNext nextMoves false >>>
      match slice bottomNext with
      | (Throws what, _) => Uncaught what
      | (Returns _, sliced) =>
          checkSolved sliced nextMoves true >>> next sliced nextMoves
      end).

Definition top_loop (next : Puzzle -> list Z -> control)
           (puzzle : Puzzle) (moves : list Z) : control :=
  for_each MOVES (fun a =>
    let topNext := snd (turn (to_int a) 0 (clone puzzle)) in
    if negb (canSliceTop topNext) then Continue
    else bottom_loop next topNext a moves).

(** [solve], by recursion on the number of levels left below [depth]. *)
Fixpoint solve_levels (levels : nat) (puzzle : Puzzle) (moves : list Z) (depth : Z) : control :=
  if depth >? 8 then Continue
  else
    match levels with
    | O => Continue
    | S levels' =>
        top_loop (fun p m => solve_levels levels' p m (depth + 1)) puzzle moves
    end.

Definition solve (puzzle : Puzzle) (moves : list Z) (depth : Z) : control :=
  solve_levels (Z.to_nat (9 - depth)) puzzle moves depth.

(** [solveMultithread]: the tasks it launches, each as what it does when
    it runs to its end.  The tasks share no puzzle and no move list. *)
Definition solveMultithread_tasks (start : Puzzle) (baseMoves : list Z) : list control :=
  flat_map (fun a =>
    let topNext := snd (turn (to_int a) 0 (clone start)) in
    if negb (canSliceTop topNext) then []
    else [bottom_loop (fun p m => solve p m 1) topNext a baseMoves]) MOVES.

End Shifts.

(** Two readings of the out-of-range shift: the count taken modulo the
    width, as shift instructions that mask their count do, and all bits
    shifted out. *)
Definition shl_count_masked (x : Row) (n : Z) : Z := Z.shiftl x (n mod TOTAL_BITS).
Definition shl_all_out (x : Row) (n : Z) : Z := 0.


(** ** Slots

    The slot [printRow] extracts at position [i], and the 18 slots it
    prints for a row, first slot first. *)
Definition row_slot (row : Row) (i : Z) : Z :=
  Z.land (Z.shiftr row ((SLOTS_PER_ROW - 1 - i) * SLOT_SIZE)) SLOT_MASK.

Definition printRow_slots (row : Row) : list Z :=
  map (fun i => row_slot row (Z.of_nat i)) (seq 0 (Z.to_nat SLOTS_PER_ROW)).

(** The mask with a one at each of the listed bit positions. *)
Definition bits_mask (positions : list Z) : Z :=
  fold_right (fun b m => Z.lor (Z.shiftl 1 b) m) 0 positions.

(** The integers [0 .. n-1]. *)
Definition upto (n : nat) : list Z := map Z.of_nat (seq 0 n).

(** ** Replaying a recorded move list

    Each entry is decoded and applied the way it was recorded: a turn,
    then a slice; the slice of the last entry is applied only when the
    list was reported with [endsOnSlice]. *)

Section Replay.

Variable shl_oob : Row -> Z -> Z.

Fixpoint replay (moves : list Z) (endsOnSlice : bool) : method unit :=
  match moves with
  | [] => fun p => (Returns tt, p)
  | m :: rest =>
      let (topTurns, bottomTurns) := decodeMove m in
      match rest with
      | [] =>
          if endsOnSlice then move shl_oob topTurns bottomTurns
          else turn shl_oob topTurns bottomTurns
      | _ :: _ => move shl_oob topTurns bottomTurns ;; replay rest endsOnSlice
      end
  end.

(** An entry the search records: the code of two amounts of [MOVES]. *)
Definition search_entry (m : Z) : Prop :=
  exists a b, In a MOVES /\ In b MOVES /\ m = encodeMove a b.

(** What a call of the search that started at [puzzle] with the list
    [moves] may announce with at most [budget] further entries. *)
Definition announces_replayable (puzzle : Puzzle) (moves : list Z) (budget : Z)
           (c : control) : Prop :=
  forall reported endsOnSlice,
    c = Exit reported endsOnSlice ->
    exists added final,
      reported = moves ++ added
      /\ added <> []
      /\ Z.of_nat (length added) <= budget
      /\ Forall search_entry added
      /\ replay added endsOnSlice puzzle = (Returns tt, final)
      /\ cubeShape final = true
      /\ isRowOrientationSolved final = true.

End Replay.

(** What a call of the search that returns has ruled out below [puzzle]:
    every list of at most [budget] recorded entries whose turns and slices
    can all be carried out ends, before and after its last slice, in a
    puzzle that [checkSolved] does not accept. *)
Definition rules_out (shl_oob : Row -> Z -> Z) (puzzle : Puzzle) (budget : Z) : Prop :=
  forall added sliced,
    added <> [] ->
    Z.of_nat (length added) <= budget ->
    Forall search_entry added ->
    replay shl_oob added true puzzle = (Returns tt, sliced) ->
    cubeShape sliced && isRowOrientationSolved sliced = false
    /\ exists turned,
         replay shl_oob added false puzzle = (Returns tt, turned)
         /\ cubeShape turned && isRowOrientationSolved turned = false.

(** ** The formatter's second loop

    [pop_back] on an empty vector has no result. *)

Definition pop_back (v : list Z) : option (list Z) :=
  match v with
  | [] => None
  | _ :: _ => Some (removelast v)
  end.

(** The test that drops [move] together with the move emitted last. *)
Definition undoes_last (lastMove move : Z) : bool :=
  let (lastTopTurns, lastBottomTurns) := decodeMove lastMove in
  let (topTurns, bottomTurns) := decodeMove move in
  negb (move =? 0)
  && (lastTopTurns =? wrapPositive (to_int (- topTurns)))
  && (lastBottomTurns =? wrapPositive (to_int (- bottomTurns))).

(** One pass of the inner [for] over the entries of [previousList] still
    to be visited; the result is [ignoreDuplicates] and [madeNoChange]. *)
Fixpoint ignoreDuplicates_loop (previousList : list Z) (lastMove : Z)
         (ignoreDuplicates : list Z) (madeNoChange : bool) : option (list Z * bool) :=
  match previousList with
  | [] => Some (ignoreDuplicates, madeNoChange)
  | m :: rest =>
      if m =? 0 then ignoreDuplicates_loop rest lastMove ignoreDuplicates madeNoChange
      else if undoes_last lastMove m then
        match pop_back ignoreDuplicates with
        | None => None
        | Some popped => ignoreDuplicates_loop rest 0 popped false
        end
      else ignoreDuplicates_loop rest m (push_back ignoreDuplicates m) madeNoChange
  end.

(** [while (!madeNoChange)], one [fuel] per pass. *)
Fixpoint cancel_passes (fuel : nat) (previousList : list Z) : option (list Z) :=
  match fuel with
  | O => None
  | S fuel' =>
      match ignoreDuplicates_loop previousList 0 [] true with
      | None => None
      | Some (ignoreDuplicates, madeNoChange) =>
          if madeNoChange then Some ignoreDuplicates
          else cancel_passes fuel' ignoreDuplicates
      end
  end.

(** The list [formatMoves] ends up printing: the first loop, then the
    passes of the second. *)
Definition formatMoves_list (moves : list Z) : option (list Z) :=
  match formatMoves_ignoreZeroes moves with
  | None => None
  | Some ignoreZeroes => cancel_passes (S (length ignoreZeroes)) ignoreZeroes
  end.

(** An entry that [encodeMove] can produce. *)
Definition encoded (m : Z) : Prop := exists t b, m = encodeMove t b.

(** The 36 slots [print] shows: those of the top row, then those of the
    bottom row. *)
Definition puzzle_slots (p : Puzzle) : list Z :=
  printRow_slots (top p) ++ printRow_slots (bottom p).

(** * Properties *)

(** ** Turn amounts *)

Lemma wrapPositive_mod (n : Z) : wrapPositive n = n mod 18.
Proof.
  unfold wrapPositive, SLOTS_PER_ROW.
  pose proof (Z.rem_bound_abs n 18 ltac:(lia)) as Hb.
  rewrite Z.rem_mod_nonneg by lia.
  pose proof (Z.quot_rem' n 18) as Hq.
  replace (Z.rem n 18 + 18) with (n + (1 - Z.quot n 18) * 18) by lia.
  apply Z_mod_plus_full.
Qed.

Lemma wrapPositive_range (n : Z) : 0 <= wrapPositive n < 18.
Proof. rewrite wrapPositive_mod. apply Z.mod_pos_bound. lia. Qed.

Lemma wrapPositive_small (n : Z) : 0 <= n < 18 -> wrapPositive n = n.
Proof. intros H. rewrite wrapPositive_mod. apply Z.mod_small. exact H. Qed.

Lemma wrapPositive_periodic (n : Z) : wrapPositive (n + 18) = wrapPositive n.
Proof.
  rewrite !wrapPositive_mod.
  replace (n + 18) with (n + 1 * 18) by lia.
  apply Z_mod_plus_full.
Qed.

Lemma wrapNegative_mod (n : Z) : wrapNegative n = (n mod 18 + 8) mod 18 - 8.
Proof.
  unfold wrapNegative. rewrite wrapPositive_mod.
  change SLOTS_PER_HALF with 9. change SLOTS_PER_ROW with 18.
  pose proof (Z.mod_pos_bound n 18 ltac:(lia)).
  rewrite Z.rem_mod_nonneg by lia.
  f_equal. f_equal. lia.
Qed.

(** The centred amount is the same rotation: it differs from [n] by a
    multiple of 18, so its 18 values cannot fit in the 17-element (-8, 9]. *)
Lemma wrapNegative_congruent (n : Z) : (wrapNegative n - n) mod 18 = 0.
Proof.
  rewrite wrapNegative_mod.
  pose proof (Z.mod_pos_bound n 18 ltac:(lia)).
  pose proof (Z.div_mod n 18 ltac:(lia)).
  pose proof (Z.div_mod (n mod 18 + 8) 18 ltac:(lia)).
  replace ((n mod 18 + 8) mod 18 - 8 - n)
    with ((- ((n mod 18 + 8) / 18) - n / 18) * 18) by lia.
  apply Z_mod_mult.
Qed.

(** C6, as the claim states it, fails: [wrapNegative 10] is [-8], which is
    not strictly greater than [-8]. *)
Lemma wrapNegative_reaches_minus_8 : ~ (-8 < wrapNegative 10 <= 9).
Proof. vm_compute. intros [H _]. discriminate H. Qed.

(** C6 (amended): for every integer [n], [wrapNegative n] lies in the closed
    range [-8 .. 9], and [wrapNegative] has period 18. *)
Theorem wrapNegative_range_periodic :
  forall n : Z, -8 <= wrapNegative n <= 9 /\ wrapNegative (n + 18) = wrapNegative n.
Proof.
  intros n. split.
  - rewrite wrapNegative_mod.
    pose proof (Z.mod_pos_bound (n mod 18 + 8) 18 ltac:(lia)). lia.
  - unfold wrapNegative. rewrite wrapPositive_periodic. reflexivity.
Qed.

(** ** Packed moves *)

Lemma to_int_small (x : Z) : - 2 ^ 31 <= x < 2 ^ 31 -> to_int x = x.
Proof. intros H. unfold to_int. rewrite Z.mod_small; lia. Qed.

Lemma encodeMove_small (t b : Z) :
  0 <= t < 18 -> 0 <= b < 18 -> encodeMove t b = Z.lor (Z.shiftl t 6) b.
Proof.
  intros Ht Hb. unfold encodeMove, SLOT_SIZE.
  rewrite !to_int_small by lia.
  rewrite !wrapPositive_small by assumption. reflexivity.
Qed.

(** C8: for turn amounts already in [0, 18), decoding an encoded move gives
    the two amounts back. *)
Theorem decodeMove_encodeMove :
  forall topTurns bottomTurns : Z,
    0 <= topTurns < 18 -> 0 <= bottomTurns < 18 ->
    decodeMove (encodeMove topTurns bottomTurns) = (topTurns, bottomTurns).
Proof.
  intros t b Ht Hb. rewrite encodeMove_small by assumption.
  unfold decodeMove, SLOT_SIZE.
  change (Z.shiftl 1 6 - 1) with (Z.ones 6).
  rewrite !Z.land_ones by lia.
  rewrite Z.shiftr_lor, Z.shiftr_shiftl_l by lia.
  rewrite Z.sub_diag, Z.shiftl_0_r, (Z.shiftr_div_pow2 b) by lia.
  rewrite (Z.div_small b) by lia. rewrite Z.lor_0_r.
  f_equal.
  - apply Z.mod_small. lia.
  - rewrite <- Z.land_ones by lia.
    rewrite Z.land_lor_distr_l, !Z.land_ones by lia.
    rewrite Z.shiftl_mul_pow2 by lia.
    rewrite Z_mod_mult, Z.lor_0_l. apply Z.mod_small. lia.
Qed.

Lemma decodeMove_encodeMove_witness :
  0 <= 17 < 18 /\ 0 <= 3 < 18 /\ decodeMove (encodeMove 17 3) = (17, 3).
Proof.
  split; [lia | split; [lia | apply (decodeMove_encodeMove 17 3); lia]].
Defined.

(** ** Bits of rows *)

Lemma testbit_high (n w i : Z) : 0 <= n < 2 ^ w -> 0 <= w <= i -> Z.testbit n i = false.
Proof.
  intros Hn Hw.
  rewrite <- (Z.mod_small n (2 ^ w)) by assumption.
  apply Z.mod_pow2_bits_high. lia.
Qed.

Lemma below_pow2 (n w : Z) :
  0 <= w -> 0 <= n -> (forall i, w <= i -> Z.testbit n i = false) -> n < 2 ^ w.
Proof.
  intros Hw Hn Hbits.
  destruct (Z.eq_dec n 0) as [-> | Hnz].
  - apply Z.pow_pos_nonneg; lia.
  - apply Z.log2_lt_pow2; [lia |].
    destruct (Z_lt_le_dec (Z.log2 n) w) as [Hlt | Hge]; [exact Hlt |].
    pose proof (Z.bit_log2 n ltac:(lia)) as Hb.
    rewrite (Hbits _ Hge) in Hb. discriminate Hb.
Qed.

Lemma land_zero_bit (x m i : Z) :
  Z.land x m = 0 -> Z.testbit x i && Z.testbit m i = false.
Proof.
  intros H. rewrite <- Z.land_spec, H. apply Z.bits_0.
Qed.

Lemma not128_spec (x i : Z) :
  0 <= i -> Z.testbit (not128 x) i = xorb (Z.testbit x i) (i <? 128).
Proof.
  intros Hi. unfold not128, TOTAL_BITS.
  rewrite Z.lxor_spec, Z.testbit_ones_nonneg by lia. reflexivity.
Qed.

Lemma ROW_MASK_ones : ROW_MASK = Z.ones 108.
Proof. reflexivity. Qed.

Lemma land_ROW_MASK_clean (x : Z) : row_clean (Z.land x ROW_MASK).
Proof.
  unfold row_clean. rewrite ROW_MASK_ones, Z.land_ones by lia.
  change ROW_BITS with 108. apply Z.mod_pos_bound. lia.
Qed.

Lemma land_ROW_MASK_id (x : Z) : row_clean x -> Z.land x ROW_MASK = x.
Proof.
  intros H. rewrite ROW_MASK_ones, Z.land_ones by lia.
  apply Z.mod_small. exact H.
Qed.

Lemma row_clean_is_row (x : Z) : row_clean x -> is_row x.
Proof.
  unfold row_clean, is_row. change ROW_BITS with 108. change TOTAL_BITS with 128.
  intros [H0 H1]. split; [exact H0 |].
  apply Z.lt_trans with (2 ^ 108); [exact H1 | reflexivity].
Qed.

(** ** Slice *)

Lemma slice_returns (p : Puzzle) :
  canSlice p = true ->
  slice p = (Returns tt, mkPuzzle (swap_top (top p) (bottom p)) (swap_top (bottom p) (top p))).
Proof. intros H. unfold slice. rewrite H. reflexivity. Qed.

Lemma slice_throws (p : Puzzle) :
  canSlice p = false -> slice p = (Throws slice_unavailable, p).
Proof. intros H. unfold slice. rewrite H. reflexivity. Qed.

Lemma HALF_MASK_is_row : is_row HALF_MASK.
Proof. split; [discriminate | reflexivity]. Qed.

Lemma swap_top_twice (t b : Row) :
  is_row t -> swap_top (swap_top t b) (swap_top b t) = t.
Proof.
  intros Ht. unfold swap_top.
  apply Z.bits_inj'. intros i Hi.
  rewrite !Z.lor_spec, !Z.land_spec, !Z.lor_spec, !Z.land_spec, !not128_spec by assumption.
  destruct (Z.ltb_spec i 128) as [Hlt | Hge].
  - destruct (Z.testbit t i), (Z.testbit b i), (Z.testbit HALF_MASK i); reflexivity.
  - rewrite (testbit_high t 128 i), (testbit_high HALF_MASK 128 i)
      by (try apply HALF_MASK_is_row; try assumption; lia).
    destruct (Z.testbit b i); reflexivity.
Qed.

Lemma swap_top_keeps_slice_mask (t b : Row) :
  Z.land t SLICE_MASK = 0 -> Z.land b SLICE_MASK = 0 ->
  Z.land (swap_top t b) SLICE_MASK = 0.
Proof.
  intros Ht Hb. unfold swap_top.
  apply Z.bits_inj'. intros i Hi.
  rewrite Z.bits_0, !Z.land_spec, Z.lor_spec, !Z.land_spec.
  pose proof (land_zero_bit _ _ i Ht) as Ht'.
  pose proof (land_zero_bit _ _ i Hb) as Hb'.
  destruct (Z.testbit t i), (Z.testbit b i), (Z.testbit SLICE_MASK i),
    (Z.testbit HALF_MASK i), (Z.testbit (not128 HALF_MASK) i);
    simpl in *; congruence.
Qed.

Lemma canSlice_split (p : Puzzle) : canSlice p = canSliceTop p && canSliceBottom p.
Proof. reflexivity. Qed.

Lemma canSlice_masks (p : Puzzle) :
  canSlice p = true <-> Z.land (top p) SLICE_MASK = 0 /\ Z.land (bottom p) SLICE_MASK = 0.
Proof.
  unfold canSlice. rewrite andb_true_iff, !Z.eqb_eq. reflexivity.
Qed.

Lemma slice_keeps_canSlice (p : Puzzle) :
  canSlice p = true -> canSlice (snd (slice p)) = true.
Proof.
  intros H. rewrite slice_returns by assumption. simpl.
  apply canSlice_masks in H. destruct H as [Ht Hb].
  apply canSlice_masks. simpl.
  split; apply swap_top_keeps_slice_mask; assumption.
Qed.

(** C2: on a puzzle where [canSlice] holds, two slices in a row both return
    and leave [top] and [bottom] exactly as they were. *)
Theorem slice_involution :
  forall p : Puzzle,
    is_row (top p) -> is_row (bottom p) -> canSlice p = true ->
    (slice ;; slice) p = (Returns tt, p).
Proof.
  intros p Ht Hb Hc. unfold bind.
  pose proof (slice_keeps_canSlice p Hc) as Hc'.
  rewrite (slice_returns p Hc) in *. simpl in Hc'.
  rewrite (slice_returns _ Hc'). simpl.
  rewrite !swap_top_twice by assumption.
  destruct p; reflexivity.
Qed.

Lemma slice_involution_witness :
  (slice ;; slice) Puzzle_default = (Returns tt, Puzzle_default).
Proof.
  apply (slice_involution Puzzle_default);
    [split; [discriminate | reflexivity] | split; [discriminate | reflexivity] | reflexivity].
Defined.

(** C3: [slice] throws its logic error exactly when [canSlice] is false,
    and a slice that throws leaves the puzzle as it was. *)
Theorem slice_throws_iff_cannot_slice :
  forall p : Puzzle,
    (fst (slice p) = Throws slice_unavailable <-> canSlice p = false)
    /\ (threw (fst (slice p)) = true <-> canSlice p = false)
    /\ (forall what, fst (slice p) = Throws what -> snd (slice p) = p).
Proof.
  intros p. destruct (canSlice p) eqn:Hc.
  - rewrite (slice_returns p Hc). simpl.
    repeat split; intros; discriminate.
  - rewrite (slice_throws p Hc). simpl.
    repeat split; intros; reflexivity.
Qed.

Lemma slice_throws_iff_cannot_slice_witness :
  snd (slice (mkPuzzle SLICE_MASK 0)) = mkPuzzle SLICE_MASK 0.
Proof.
  apply (proj2 (proj2 (slice_throws_iff_cannot_slice (mkPuzzle SLICE_MASK 0)))
               slice_unavailable).
  reflexivity.
Defined.

(** ** The 108-bit invariant *)

Lemma swap_top_clean (t b : Row) : row_clean t -> row_clean b -> row_clean (swap_top t b).
Proof.
  intros Ht Hb. unfold swap_top, row_clean. change ROW_BITS with 108. split.
  - apply Z.lor_nonneg. split; apply Z.land_nonneg; left; [apply Ht | apply Hb].
  - apply below_pow2; [lia | |].
    + apply Z.lor_nonneg. split; apply Z.land_nonneg; left; [apply Ht | apply Hb].
    + intros i Hi. rewrite Z.lor_spec, !Z.land_spec.
      rewrite (testbit_high t 108 i), (testbit_high b 108 i) by (assumption || lia).
      reflexivity.
Qed.

Lemma Puzzle_default_clean : puzzle_clean Puzzle_default.
Proof. split; (split; [discriminate | reflexivity]). Qed.

Section Turning.

Variable shl_oob : Row -> Z -> Z.

Lemma turnRow_zero (row : Row) : turnRow shl_oob row 0 = row.
Proof. reflexivity. Qed.

Lemma turnRow_clean (row : Row) (slots : Z) :
  row_clean row -> row_clean (turnRow shl_oob row slots).
Proof.
  intros H. unfold turnRow. destruct (slots =? 0); [exact H |].
  apply land_ROW_MASK_clean.
Qed.

Lemma turn_clean (p : Puzzle) (a b : Z) :
  puzzle_clean p -> puzzle_clean (snd (turn shl_oob a b p)).
Proof. intros [Ht Hb]. split; simpl; apply turnRow_clean; assumption. Qed.

Lemma slice_clean (p : Puzzle) : puzzle_clean p -> puzzle_clean (snd (slice p)).
Proof.
  intros [Ht Hb]. destruct (canSlice p) eqn:Hc.
  - rewrite (slice_returns p Hc). split; simpl; apply swap_top_clean; assumption.
  - rewrite (slice_throws p Hc). split; assumption.
Qed.

Lemma move_state (p : Puzzle) (a b : Z) :
  snd (move shl_oob a b p) = snd (slice (snd (turn shl_oob a b p))).
Proof.
  unfold move, bind. simpl.
  destruct (slice _) as [[u | what] q]; reflexivity.
Qed.

(** C5: starting from rows with no bit above position 107, [turn] with any
    turn amounts, [slice] where [canSlice] holds, [move] and [clone] all
    leave rows with no bit above position 107, and so does the default
    construction.  Nothing depends on what an out-of-range shift yields. *)
Theorem rows_stay_within_108_bits :
  forall p : Puzzle,
    puzzle_clean p ->
    (forall topTurns bottomTurns, puzzle_clean (snd (turn shl_oob topTurns bottomTurns p)))
    /\ (canSlice p = true -> fst (slice p) = Returns tt /\ puzzle_clean (snd (slice p)))
    /\ (forall topTurns bottomTurns, puzzle_clean (snd (move shl_oob topTurns bottomTurns p)))
    /\ puzzle_clean (clone p)
    /\ puzzle_clean Puzzle_default.
Proof.
  intros p Hp.
  split; [intros a b; apply turn_clean; exact Hp |].
  split; [intros Hc; split;
          [rewrite (slice_returns p Hc); reflexivity | apply slice_clean; exact Hp] |].
  split; [intros a b; rewrite move_state; apply slice_clean, turn_clean; exact Hp |].
  split; [exact Hp | exact Puzzle_default_clean].
Qed.

End Turning.

Lemma rows_stay_within_108_bits_witness :
  puzzle_clean Puzzle_default
  /\ puzzle_clean (snd (move shl_count_masked 3 0 Puzzle_default)).
Proof.
  assert (Hd : puzzle_clean Puzzle_default)
    by (split; (split; [discriminate | reflexivity])).
  split; [exact Hd |].
  apply (rows_stay_within_108_bits shl_count_masked Puzzle_default Hd).
Defined.

(** ** Solved-state predicates *)

Lemma isSolved_rows (p : Puzzle) :
  isSolved p = true <-> top p = SOLVED_TOP /\ bottom p = SOLVED_BOTTOM.
Proof. unfold isSolved. rewrite andb_true_iff, !Z.eqb_eq. reflexivity. Qed.

Lemma isSolved_shape_orientation (p : Puzzle) :
  isSolved p = true -> cubeShape p = true /\ isRowOrientationSolved p = true.
Proof.
  intros H. apply isSolved_rows in H. destruct H as [Ht Hb].
  unfold cubeShape, isRowOrientationSolved. rewrite Ht, Hb.
  split; reflexivity.
Qed.

(** C9: with both masks zero, [isSolvedByMatches] is true exactly when
    [cubeShape] and [isRowOrientationSolved] hold, whatever the match rows;
    with the solved rows as matches and the full row mask as both masks it
    agrees with [isSolved], on puzzles whose rows have no bit above 107. *)
Theorem isSolvedByMatches_extremes :
  forall p : Puzzle,
    row_clean (top p) -> row_clean (bottom p) ->
    (forall topMatch bottomMatch,
        isSolvedByMatches p topMatch 0 bottomMatch 0
        = cubeShape p && isRowOrientationSolved p)
    /\ isSolvedByMatches p SOLVED_TOP ROW_MASK SOLVED_BOTTOM ROW_MASK = isSolved p.
Proof.
  intros p Ht Hb. split.
  - intros tm bm. unfold isSolvedByMatches.
    rewrite !Z.land_0_r.
    destruct (cubeShape p), (isRowOrientationSolved p); reflexivity.
  - unfold isSolvedByMatches.
    rewrite !land_ROW_MASK_id
      by (assumption || (split; [discriminate | reflexivity])).
    destruct (isSolved p) eqn:Hs.
    + destruct (isSolved_shape_orientation p Hs) as [-> ->]. exact Hs.
    + destruct (cubeShape p), (isRowOrientationSolved p); simpl; try reflexivity.
      exact Hs.
Qed.

Lemma isSolvedByMatches_extremes_witness :
  row_clean SOLVED_BOTTOM /\ row_clean SOLVED_TOP
  /\ isSolvedByMatches (mkPuzzle SOLVED_BOTTOM SOLVED_TOP)
       SOLVED_TOP ROW_MASK SOLVED_BOTTOM ROW_MASK
     = isSolved (mkPuzzle SOLVED_BOTTOM SOLVED_TOP).
Proof.
  assert (Hb : row_clean SOLVED_BOTTOM) by (split; [discriminate | reflexivity]).
  assert (Ht : row_clean SOLVED_TOP) by (split; [discriminate | reflexivity]).
  split; [exact Hb | split; [exact Ht |]].
  apply (isSolvedByMatches_extremes (mkPuzzle SOLVED_BOTTOM SOLVED_TOP) Hb Ht).
Defined.

(** C10: [checkSolved] ends the search exactly when [cubeShape] and
    [isRowOrientationSolved] hold.  Every solved puzzle passes that test,
    and the solved puzzle with its top row turned by 3 slots passes it
    without being solved. *)
Theorem checkSolved_weaker_than_isSolved :
  forall shl_oob : Row -> Z -> Z,
    (forall p moves endsOnSlice,
        checkSolved p moves endsOnSlice = Exit moves endsOnSlice
        <-> cubeShape p = true /\ isRowOrientationSolved p = true)
    /\ (forall p moves endsOnSlice,
        checkSolved p moves endsOnSlice = Continue
        <-> ~ (cubeShape p = true /\ isRowOrientationSolved p = true))
    /\ (forall p moves endsOnSlice,
        isSolved p = true -> checkSolved p moves endsOnSlice = Exit moves endsOnSlice)
    /\ (let p := snd (turn shl_oob 3 0 Puzzle_default) in
        (forall moves endsOnSlice, checkSolved p moves endsOnSlice = Exit moves endsOnSlice)
        /\ isSolved p = false).
Proof.
  intros shl_oob.
  split; [| split; [| split]].
  - intros p moves e. unfold checkSolved. rewrite <- andb_true_iff.
    destruct (cubeShape p && isRowOrientationSolved p); split; intros H;
      (reflexivity || discriminate H).
  - intros p moves e. unfold checkSolved. rewrite <- andb_true_iff.
    destruct (cubeShape p && isRowOrientationSolved p); split; intros H;
      try reflexivity; try discriminate H.
    + exfalso. apply H. reflexivity.
    + intros H'. discriminate H'.
  - intros p moves e Hs. unfold checkSolved.
    destruct (isSolved_shape_orientation p Hs) as [-> ->]. reflexivity.
  - split; [intros moves e |]; reflexivity.
Qed.

Lemma checkSolved_weaker_than_isSolved_witness :
  checkSolved Puzzle_default [encodeMove 0 0] false = Exit [encodeMove 0 0] false.
Proof.
  apply (proj1 (proj2 (proj2 (checkSolved_weaker_than_isSolved shl_count_masked)))
               Puzzle_default [encodeMove 0 0] false).
  reflexivity.
Defined.

(** ** The search never slices where it cannot *)

Lemma and_then_caught (c k : control) :
  uncaught c = false -> uncaught k = false -> uncaught (c >>> k) = false.
Proof. destruct c; simpl; intros Hc Hk; assumption. Qed.

Lemma for_each_caught {A : Type} (l : list A) (body : A -> control) :
  (forall x, In x l -> uncaught (body x) = false) -> uncaught (for_each l body) = false.
Proof.
  induction l as [| x l IH]; intros Hbody; simpl.
  - reflexivity.
  - apply and_then_caught.
    + apply Hbody. left. reflexivity.
    + apply IH. intros y Hy. apply Hbody. right. exact Hy.
Qed.

Lemma checkSolved_caught (p : Puzzle) (moves : list Z) (e : bool) :
  uncaught (checkSolved p moves e) = false.
Proof. unfold checkSolved. destruct (_ && _); reflexivity. Qed.

Section Search.

Variable shl_oob : Row -> Z -> Z.

(** The bottom turn is [turn(0, b)]: it leaves the top row alone. *)
Lemma bottom_turn_keeps_top (p : Puzzle) (b : Z) :
  top (snd (turn shl_oob 0 b (clone p))) = top p.
Proof. reflexivity. Qed.

Lemma guarded_slice_allowed (topNext : Puzzle) (b : Z) :
  canSliceTop topNext = true ->
  canSliceBottom (snd (turn shl_oob 0 b (clone topNext))) = true ->
  canSlice (snd (turn shl_oob 0 b (clone topNext))) = true.
Proof.
  intros Ht Hb. rewrite canSlice_split, Hb.
  unfold canSliceTop in *. rewrite bottom_turn_keeps_top, Ht. reflexivity.
Qed.

Lemma bottom_loop_caught next (topNext : Puzzle) (a : Z) (moves : list Z) :
  (forall p m, uncaught (next p m) = false) ->
  canSliceTop topNext = true ->
  uncaught (bottom_loop shl_oob next topNext a moves) = false.
Proof.
  intros Hnext Ht. unfold bottom_loop.
  apply for_each_caught. intros b _. cbv beta zeta.
  destruct (canSliceBottom _) eqn:Hb; cbn [negb]; [| reflexivity].
  apply and_then_caught; [apply checkSolved_caught |].
  rewrite (slice_returns _ (guarded_slice_allowed topNext (to_int b) Ht Hb)).
  apply and_then_caught; [apply checkSolved_caught | apply Hnext].
Qed.

Lemma top_loop_caught next (puzzle : Puzzle) (moves : list Z) :
  (forall p m, uncaught (next p m) = false) ->
  uncaught (top_loop shl_oob next puzzle moves) = false.
Proof.
  intros Hnext. unfold top_loop.
  apply for_each_caught. intros a _. cbv beta zeta.
  destruct (canSliceTop _) eqn:Ht; cbn [negb]; [| reflexivity].
  apply bottom_loop_caught; assumption.
Qed.

Lemma solve_levels_caught (levels : nat) :
  forall puzzle moves depth,
    uncaught (solve_levels shl_oob levels puzzle moves depth) = false.
Proof.
  induction levels as [| levels IH]; intros puzzle moves depth; simpl;
    destruct (depth >? 8); try reflexivity.
  apply top_loop_caught. intros p m. apply IH.
Qed.

(** [solve] satisfies the equation its C++ body reads as: the levels it
    is given are the levels it needs. *)
Lemma solve_unfold (puzzle : Puzzle) (moves : list Z) (depth : Z) :
  solve shl_oob puzzle moves depth
  = if depth >? 8 then Continue
    else top_loop shl_oob (fun p m => solve shl_oob p m (depth + 1)) puzzle moves.
Proof.
  unfold solve. destruct (Z.gtb_spec depth 8) as [Hgt | Hle].
  - destruct (Z.to_nat (9 - depth)); simpl;
      destruct (Z.gtb_spec depth 8); try lia; reflexivity.
  - replace (Z.to_nat (9 - depth)) with (S (Z.to_nat (9 - (depth + 1)))) by lia.
    simpl. destruct (Z.gtb_spec depth 8); [lia | reflexivity].
Qed.

(** C4: in [solve] and in every task of [solveMultithread], a branch
    reaches [slice] only after [canSliceTop] held behind the top turn and
    [canSliceBottom] behind the bottom turn; the bottom turn leaves the
    top row alone, so [canSlice] holds at every [slice] and no exception
    leaves the search. *)
Theorem search_never_slices_illegally :
  (forall topNext b,
      canSliceTop topNext = true ->
      let bottomNext := snd (turn shl_oob 0 b (clone topNext)) in
      canSliceBottom bottomNext = true ->
      canSliceTop bottomNext = true
      /\ canSlice bottomNext = true
      /\ fst (slice bottomNext) = Returns tt)
  /\ (forall puzzle moves depth, uncaught (solve shl_oob puzzle moves depth) = false)
  /\ (forall start baseMoves,
      Forall (fun task => uncaught task = false)
             (solveMultithread_tasks shl_oob start baseMoves)).
Proof.
  split; [| split].
  - intros topNext b Ht bottomNext Hb.
    pose proof (guarded_slice_allowed topNext b Ht Hb) as Hc.
    fold bottomNext in Hc.
    split; [| split; [exact Hc |]].
    + unfold canSliceTop, bottomNext. rewrite bottom_turn_keeps_top. exact Ht.
    + rewrite (slice_returns _ Hc). reflexivity.
  - intros puzzle moves depth. apply solve_levels_caught.
  - intros start baseMoves. unfold solveMultithread_tasks.
    apply Forall_flat_map. apply Forall_forall. intros a _. cbv beta zeta.
    destruct (canSliceTop _) eqn:Ht; cbn [negb]; constructor; [| constructor].
    apply bottom_loop_caught; [| exact Ht].
    intros p m. apply solve_levels_caught.
Qed.

End Search.

Lemma search_never_slices_illegally_witness :
  uncaught (solve shl_count_masked Puzzle_default [] 0) = false
  /\ Forall (fun task => uncaught task = false)
            (solveMultithread_tasks shl_count_masked Puzzle_default []).
Proof.
  split; apply (search_never_slices_illegally shl_count_masked).
Defined.

(** ** The formatter's first loop *)

Lemma vec_at_middle (pre rest : list Z) (m : Z) :
  vec_at (pre ++ m :: rest) (Z.of_nat (length pre)) = Some m.
Proof.
  unfold vec_at. rewrite length_app. simpl length.
  destruct (Z.leb_spec 0 (Z.of_nat (length pre))); [| lia].
  destruct (Z.ltb_spec (Z.of_nat (length pre)) (Z.of_nat (length pre + S (length rest))));
    [| lia].
  simpl. rewrite Nat2Z.id, nth_error_app2 by lia.
  rewrite Nat.sub_diag. reflexivity.
Qed.

Lemma vec_at_previous (pre rest : list Z) (m : Z) :
  vec_at ((pre ++ [m]) ++ rest) (Z.of_nat (length (pre ++ [m])) - 1) = Some m.
Proof.
  rewrite <- app_assoc. simpl app.
  replace (Z.of_nat (length (pre ++ [m])) - 1) with (Z.of_nat (length pre))
    by (rewrite length_app; simpl; lia).
  apply vec_at_middle.
Qed.

Lemma parity_next (sp : Z) :
  0 <= sp -> (Z.rem (sp + 1) 2 =? 1) = negb (Z.rem sp 2 =? 1).
Proof.
  intros H. rewrite !Z.rem_mod_nonneg by lia.
  destruct (Z.eqb_spec ((sp + 1) mod 2) 1), (Z.eqb_spec (sp mod 2) 1);
    simpl; try reflexivity; exfalso; Z.div_mod_to_equations; lia.
Qed.

(** The loop at index [length pre], with the entries [pre] behind it and
    [rest] ahead; an odd [sliceParity] means the entry just behind is a
    no-op. *)
Lemma ignoreZeroes_loop_spec (rest : list Z) :
  forall (pre : list Z) (sliceParity : Z) (out : list Z),
    0 <= sliceParity ->
    (Z.rem sliceParity 2 = 1 -> exists pre', pre = pre' ++ [0]) ->
    ignoreZeroes_loop (pre ++ rest) (S (length rest))
                      (Z.of_nat (length pre)) sliceParity out
    = Some (out ++ collapse_noop_runs (Z.rem sliceParity 2 =? 1) rest).
Proof.
  induction rest as [| m rest IH]; intros pre sp out Hsp Hodd.
  - rewrite app_nil_r. simpl.
    rewrite Z.leb_refl, Z.eqb_refl. simpl.
    destruct (Z.eqb_spec (Z.rem sp 2) 1) as [Ho | Ho].
    + destruct (Hodd Ho) as [pre' ->].
      pose proof (vec_at_previous pre' [] 0) as Hv.
      rewrite app_nil_r in Hv. rewrite Hv. reflexivity.
    + rewrite app_nil_r. reflexivity.
  - assert (E1 : forall x, pre ++ x :: rest = (pre ++ [x]) ++ rest)
      by (intros x; rewrite <- app_assoc; reflexivity).
    assert (E2 : forall x, Z.of_nat (length pre) + 1 = Z.of_nat (length (pre ++ [x])))
      by (intros x; rewrite length_app; simpl; lia).
    cbn [ignoreZeroes_loop].
    rewrite length_app. cbn [length].
    destruct (Z.leb_spec (Z.of_nat (length pre)) (Z.of_nat (length pre + S (length rest))));
      [| lia].
    destruct (Z.eqb_spec (Z.of_nat (length pre)) (Z.of_nat (length pre + S (length rest))));
      [lia |].
    cbn [negb]. rewrite vec_at_middle.
    cbn [collapse_noop_runs].
    destruct (Z.eqb_spec m 0) as [-> | Hm].
    + rewrite (E1 0), (E2 0).
      rewrite IH; [| lia | intros _; exists pre; reflexivity].
      rewrite parity_next by assumption. reflexivity.
    + destruct (Z.eqb_spec (Z.rem sp 2) 1) as [Ho | Ho].
      * destruct (Hodd Ho) as [pre' Hpre].
        replace (vec_at (pre ++ m :: rest) (Z.of_nat (length pre) - 1)) with (Some 0)
          by (rewrite Hpre; symmetry; apply vec_at_previous).
        rewrite (E1 m), (E2 m).
        rewrite IH; [| lia | intros Hc; discriminate Hc].
        unfold push_back. rewrite <- !app_assoc. reflexivity.
      * rewrite (E1 m), (E2 m).
        rewrite IH; [| lia | intros Hc; discriminate Hc].
        unfold push_back. rewrite <- !app_assoc. reflexivity.
Qed.

(** C7, as the claim states it, fails: after an odd run of no-ops the loop
    emits [moves[i - 1]], which is the last no-op of the run, and not the
    prior real move; the same at the end of the list. *)
Lemma formatMoves_reemits_noop_not_prior_move :
  formatMoves_ignoreZeroes [encodeMove 3 0; encodeMove 0 0; encodeMove 1 0]
    <> Some (reemit_prior_real [] false [encodeMove 3 0; encodeMove 0 0; encodeMove 1 0])
  /\ formatMoves_ignoreZeroes [encodeMove 3 0; encodeMove 0 0]
    <> Some (reemit_prior_real [] false [encodeMove 3 0; encodeMove 0 0]).
Proof. split; vm_compute; intros H; discriminate H. Qed.

Lemma collapse_noop_runs_before_real (k : nat) (m : Z) (rest : list Z) :
  m <> 0 ->
  collapse_noop_runs false (repeat 0 k ++ m :: rest)
  = (if Nat.odd k then [0] else []) ++ m :: collapse_noop_runs false rest.
Proof.
  intros Hm.
  assert (H : forall odd_run,
             collapse_noop_runs odd_run (repeat 0 k ++ m :: rest)
             = (if xorb odd_run (Nat.odd k) then [0] else [])
                 ++ m :: collapse_noop_runs false rest).
  { induction k as [| k IH]; intros odd_run.
    - simpl. destruct (Z.eqb_spec m 0); [contradiction |].
      rewrite xorb_false_r. reflexivity.
    - cbn [repeat app collapse_noop_runs]. rewrite Z.eqb_refl, IH.
      rewrite Nat.odd_succ, <- Nat.negb_odd.
      destruct odd_run, (Nat.odd k); reflexivity. }
  apply H.
Qed.

Lemma collapse_noop_runs_at_end (k : nat) :
  collapse_noop_runs false (repeat 0 k) = if Nat.odd k then [0] else [].
Proof.
  assert (H : forall odd_run,
             collapse_noop_runs odd_run (repeat 0 k)
             = if xorb odd_run (Nat.odd k) then [0] else []).
  { induction k as [| k IH]; intros odd_run.
    - simpl. rewrite xorb_false_r. reflexivity.
    - cbn [repeat collapse_noop_runs]. rewrite Z.eqb_refl, IH.
      rewrite Nat.odd_succ, <- Nat.negb_odd.
      destruct odd_run, (Nat.odd k); reflexivity. }
  apply H.
Qed.

(** C7 (amended): the first loop of the formatter always produces a list;
    a real move that follows [k] no-ops is emitted behind a single no-op
    entry when [k] is odd and on its own when [k] is even, and a list that
    ends on [k] no-ops ends on a single no-op entry when [k] is odd and on
    nothing more when [k] is even. *)
Theorem formatMoves_collapses_noop_runs :
  (forall moves, formatMoves_ignoreZeroes moves = Some (collapse_noop_runs false moves))
  /\ (forall k m rest out,
        m <> 0 ->
        formatMoves_ignoreZeroes rest = Some out ->
        formatMoves_ignoreZeroes (repeat 0 k ++ m :: rest)
        = Some ((if Nat.odd k then [0] else []) ++ m :: out))
  /\ (forall k, formatMoves_ignoreZeroes (repeat 0 k) = Some (if Nat.odd k then [0] else [])).
Proof.
  assert (H : forall moves,
             formatMoves_ignoreZeroes moves = Some (collapse_noop_runs false moves)).
  { intros moves. unfold formatMoves_ignoreZeroes.
    apply (ignoreZeroes_loop_spec moves [] 0 []); [lia |].
    intros Hc. discriminate Hc. }
  split; [exact H | split].
  - intros k m rest out Hm Hrest.
    rewrite H in Hrest. injection Hrest as <-.
    rewrite H, collapse_noop_runs_before_real by assumption. reflexivity.
  - intros k. rewrite H, collapse_noop_runs_at_end. reflexivity.
Qed.

Lemma formatMoves_collapses_noop_runs_witness :
  formatMoves_ignoreZeroes (repeat 0 3 ++ encodeMove 3 0 :: [0; encodeMove 1 0])
  = Some ([0] ++ encodeMove 3 0 :: [0; encodeMove 1 0]).
Proof.
  apply (proj1 (proj2 formatMoves_collapses_noop_runs) 3%nat (encodeMove 3 0)
               [0; encodeMove 1 0] [0; encodeMove 1 0]).
  - vm_compute. intros H. discriminate H.
  - reflexivity.
Defined.

(** ** Rotation *)

Section Rotation.

Variable shl_oob : Row -> Z -> Z.

(** Where the shifts are in range, or where an out-of-range shift leaves
    no bit, bit [i] of the turned row is bit [i + 6 * slots] of the row,
    counted around its 108 bits. *)
Lemma turnRow_bits (row : Row) (slots i : Z) :
  row_clean row ->
  shifts_in_range slots \/ (forall x, wrap128 (shl_oob x TOTAL_BITS) = 0) ->
  0 <= i ->
  Z.testbit (turnRow shl_oob row slots) i
  = (i <? 108) && Z.testbit row ((i + 6 * wrapPositive slots) mod 108).
Proof.
  intros Hrow Hdef Hi.
  pose proof (wrapPositive_range slots) as Hw.
  unfold turnRow. destruct (Z.eqb_spec slots 0) as [-> | Hnz].
  - change (wrapPositive 0) with 0. rewrite Z.mul_0_r, Z.add_0_r.
    destruct (Z.ltb_spec i 108) as [Hlt | Hge]; cbn [andb].
    + rewrite Z.mod_small by lia. reflexivity.
    + apply (testbit_high row 108 i); [exact Hrow | lia].
  - cbv zeta. rewrite ROW_MASK_ones, Z.land_spec, Z.testbit_ones_nonneg by lia.
    rewrite andb_comm.
    destruct (Z.ltb_spec i 108) as [Hlt | Hge]; cbn [andb]; [| reflexivity].
    rewrite Z.lor_spec, !Z.shiftr_spec by assumption.
    change (TOTAL_BITS - ROW_BITS) with 20. change SLOT_SIZE with 6.
    destruct (Z.eq_dec (wrapPositive slots) 0) as [Hz | Hpos].
    + (* a whole number of turns: the shift count is 128 *)
      rewrite Hz. change (0 * 6) with 0. change (6 * 0) with 0.
      change (TOTAL_BITS - 0) with TOTAL_BITS. rewrite !Z.add_0_r.
      destruct Hdef as [[H0 | Hm] | Hzero].
      * contradiction.
      * rewrite wrapPositive_mod in Hz. contradiction.
      * unfold shl128.
        change ((0 <=? TOTAL_BITS) && (TOTAL_BITS <? TOTAL_BITS)) with false.
        cbv iota. rewrite Hzero, Z.bits_0, orb_false_r.
        rewrite Z.mod_small by lia. reflexivity.
    + unfold shl128, wrap128. change TOTAL_BITS with 128.
      destruct (Z.leb_spec 0 (128 - wrapPositive slots * 6)); [| lia].
      destruct (Z.ltb_spec (128 - wrapPositive slots * 6) 128); [| lia].
      cbn [andb]. cbv iota.
      rewrite Z.mod_pow2_bits_low by lia.
      rewrite Z.shiftl_spec by lia.
      replace (i + 20 - (128 - wrapPositive slots * 6))
        with (i + 6 * wrapPositive slots - 108) by lia.
      replace (i + wrapPositive slots * 6) with (i + 6 * wrapPositive slots) by lia.
      destruct (Z_lt_le_dec (i + 6 * wrapPositive slots) 108) as [Hs | Hs].
      * rewrite (Z.testbit_neg_r row (i + 6 * wrapPositive slots - 108)) by lia.
        rewrite orb_false_r, Z.mod_small by lia. reflexivity.
      * rewrite (testbit_high row 108 (i + 6 * wrapPositive slots)) by (assumption || lia).
        cbn [orb].
        replace ((i + 6 * wrapPositive slots) mod 108)
          with (i + 6 * wrapPositive slots - 108); [reflexivity |].
        symmetry.
        replace (i + 6 * wrapPositive slots)
          with ((i + 6 * wrapPositive slots - 108) + 1 * 108) at 1 by lia.
        rewrite Z_mod_plus_full. apply Z.mod_small. lia.
Qed.

Lemma six_wrapPositive (n : Z) : 6 * wrapPositive n = (6 * n) mod 108.
Proof.
  rewrite wrapPositive_mod. change 108 with (6 * 18).
  rewrite Z.mul_mod_distr_l by lia. reflexivity.
Qed.

Lemma turnRow_compose (row : Row) (a b : Z) :
  row_clean row ->
  (shifts_in_range a /\ shifts_in_range b /\ shifts_in_range (a + b))
  \/ (forall x, wrap128 (shl_oob x TOTAL_BITS) = 0) ->
  turnRow shl_oob (turnRow shl_oob row a) b = turnRow shl_oob row (a + b).
Proof.
  intros Hrow Hdef.
  assert (Ha : shifts_in_range a \/ (forall x, wrap128 (shl_oob x TOTAL_BITS) = 0))
    by (destruct Hdef as [(H & _ & _) | H]; [left | right]; exact H).
  assert (Hb : shifts_in_range b \/ (forall x, wrap128 (shl_oob x TOTAL_BITS) = 0))
    by (destruct Hdef as [(_ & H & _) | H]; [left | right]; exact H).
  assert (Hab : shifts_in_range (a + b) \/ (forall x, wrap128 (shl_oob x TOTAL_BITS) = 0))
    by (destruct Hdef as [(_ & _ & H) | H]; [left | right]; exact H).
  apply Z.bits_inj'. intros i Hi.
  rewrite (turnRow_bits _ b i) by (try apply turnRow_clean; assumption).
  rewrite (turnRow_bits row (a + b) i) by assumption.
  destruct (Z.ltb_spec i 108) as [Hlt | Hge]; cbn [andb]; [| reflexivity].
  pose proof (Z.mod_pos_bound (i + 6 * wrapPositive b) 108 ltac:(lia)) as Hj.
  rewrite (turnRow_bits row a) by (assumption || lia).
  destruct (Z.ltb_spec ((i + 6 * wrapPositive b) mod 108) 108); [| lia].
  cbn [andb]. f_equal.
  rewrite !six_wrapPositive.
  Z.div_mod_to_equations. lia.
Qed.

End Rotation.

(** The group action, wherever [turnRow] shifts within the width of a row. *)
Lemma turnRow_action_in_range (shl_oob : Row -> Z -> Z) (row : Row) (a b : Z) :
  row_clean row ->
  shifts_in_range a -> shifts_in_range b -> shifts_in_range (a + b) ->
  turnRow shl_oob (turnRow shl_oob row a) b = turnRow shl_oob row (a + b).
Proof.
  intros Hrow Ha Hb Hab. apply turnRow_compose; [exact Hrow | left; auto].
Qed.

(** The group action for all amounts, if a shift by the full width left
    nothing of the row. *)
Lemma turnRow_action_all_out (row : Row) (a b : Z) :
  row_clean row ->
  turnRow shl_all_out (turnRow shl_all_out row a) b = turnRow shl_all_out row (a + b).
Proof.
  intros Hrow. apply turnRow_compose; [exact Hrow | right; reflexivity].
Qed.

(** C1 at the turn amount 18: [turnRow] does not return at once, its shift
    count is [128 - 0], and the row it builds is the row OR-ed with what
    that out-of-range shift yields, 20 bits down.  With the shift count
    taken modulo the width, two turns by 9 restore the solved top row and
    one turn by 9 + 9 does not. *)
Theorem turnRow_whole_turn_shifts_by_width :
  (forall shl_oob row,
      turnRow shl_oob row 18
      = Z.land (Z.lor row (Z.shiftr (wrap128 (shl_oob row 128)) 20)) ROW_MASK)
  /\ turnRow shl_count_masked (turnRow shl_count_masked SOLVED_TOP 9) 9 = SOLVED_TOP
  /\ turnRow shl_count_masked SOLVED_TOP (9 + 9) <> SOLVED_TOP.
Proof.
  split; [| split].
  - intros shl_oob row. unfold turnRow. simpl (18 =? 0). cbv iota zeta.
    change (wrapPositive 18 * SLOT_SIZE) with 0.
    change (TOTAL_BITS - 0) with 128. change (TOTAL_BITS - ROW_BITS) with 20.
    rewrite Z.shiftr_0_r. reflexivity.
  - reflexivity.
  - vm_compute. intros H. discriminate H.
Qed.

(** * Further properties of the code *)

(** ** Turn amounts and packed moves, for all arguments *)

(** X1: [wrapPositive] picks the representative in [0, 18) of its argument
    modulo 18, also for negative arguments; it has period 18 and leaves
    its own results alone. *)
Theorem wrapPositive_normal_form :
  forall n : Z,
    0 <= wrapPositive n < 18
    /\ (n - wrapPositive n) mod 18 = 0
    /\ wrapPositive (n + 18) = wrapPositive n
    /\ wrapPositive (wrapPositive n) = wrapPositive n.
Proof.
  intros n. split; [apply wrapPositive_range |]. split; [| split].
  - rewrite wrapPositive_mod. Z.div_mod_to_equations. lia.
  - apply wrapPositive_periodic.
  - apply wrapPositive_small, wrapPositive_range.
Qed.

Lemma wrapNegative_wrapPositive (n : Z) : wrapPositive (wrapNegative n) = wrapPositive n.
Proof.
  rewrite !wrapPositive_mod, wrapNegative_mod.
  Z.div_mod_to_equations. lia.
Qed.

(** X2: The centred amount [wrapNegative n] stands for the same rotation as
    [n]: normalising it gives what normalising [n] gives, and it depends on
    [n] through [wrapPositive n] only. *)
Theorem wrapNegative_same_rotation :
  forall n : Z,
    wrapPositive (wrapNegative n) = wrapPositive n
    /\ wrapNegative (wrapPositive n) = wrapNegative n.
Proof.
  intros n. split; [apply wrapNegative_wrapPositive |].
  unfold wrapNegative.
  rewrite (wrapPositive_small (wrapPositive n)) by apply wrapPositive_range.
  reflexivity.
Qed.

Lemma decode_packed (t b : Z) :
  0 <= t < 18 -> 0 <= b < 18 -> decodeMove (Z.lor (Z.shiftl t 6) b) = (t, b).
Proof.
  intros Ht Hb. unfold decodeMove, SLOT_SIZE.
  change (Z.shiftl 1 6 - 1) with (Z.ones 6).
  f_equal.
  - rewrite Z.shiftr_lor, Z.shiftr_shiftl_l by lia.
    rewrite Z.sub_diag, Z.shiftl_0_r, (Z.shiftr_div_pow2 b) by lia.
    rewrite (Z.div_small b), Z.lor_0_r, Z.land_ones by lia.
    apply Z.mod_small. lia.
  - rewrite Z.land_lor_distr_l, !Z.land_ones by lia.
    rewrite Z.shiftl_mul_pow2 by lia.
    rewrite Z_mod_mult, Z.lor_0_l. apply Z.mod_small. lia.
Qed.

Lemma encodeMove_packed (t b : Z) :
  encodeMove t b
  = Z.lor (Z.shiftl (wrapPositive (to_int t)) 6) (wrapPositive (to_int b)).
Proof. reflexivity. Qed.

Lemma encodeMove_value (t b : Z) :
  encodeMove t b = 64 * wrapPositive (to_int t) + wrapPositive (to_int b).
Proof.
  rewrite encodeMove_packed.
  pose proof (wrapPositive_range (to_int t)) as Ht.
  pose proof (wrapPositive_range (to_int b)) as Hb.
  rewrite Z.shiftl_mul_pow2 by lia. change (2 ^ 6) with 64.
  assert (Hdisjoint : Z.land (wrapPositive (to_int t) * 64) (wrapPositive (to_int b)) = 0);
    [| rewrite <- Z.lxor_lor, <- Z.add_nocarry_lxor by exact Hdisjoint; lia].
  apply Z.bits_inj'. intros i Hi. rewrite Z.land_spec, Z.bits_0.
  destruct (Z_lt_le_dec i 6) as [Hlt | Hge].
  - replace (wrapPositive (to_int t) * 64) with (wrapPositive (to_int t) * 2 ^ 6) by lia.
    rewrite Z.mul_pow2_bits_low by lia. reflexivity.
  - rewrite (testbit_high (wrapPositive (to_int b)) 6 i) by (simpl; lia).
    apply andb_false_r.
Qed.

(** X3: For all turn amounts, in range or not, decoding an encoded move gives
    the two amounts normalised into [0, 18); the code is at most 1105, so
    it fits in 12 bits, and two pairs of amounts get the same code exactly
    when they normalise to the same pair. *)
Theorem decodeMove_encodeMove_normalises :
  forall topTurns bottomTurns : Z,
    decodeMove (encodeMove topTurns bottomTurns)
    = (wrapPositive (to_int topTurns), wrapPositive (to_int bottomTurns))
    /\ 0 <= encodeMove topTurns bottomTurns <= 1105
    /\ (forall topTurns' bottomTurns',
          encodeMove topTurns bottomTurns = encodeMove topTurns' bottomTurns'
          <-> wrapPositive (to_int topTurns) = wrapPositive (to_int topTurns')
              /\ wrapPositive (to_int bottomTurns) = wrapPositive (to_int bottomTurns')).
Proof.
  intros t b.
  pose proof (wrapPositive_range (to_int t)) as Ht.
  pose proof (wrapPositive_range (to_int b)) as Hb.
  split; [| split].
  - rewrite encodeMove_packed. apply decode_packed; assumption.
  - rewrite encodeMove_value. lia.
  - intros t' b'.
    pose proof (wrapPositive_range (to_int t')) as Ht'.
    pose proof (wrapPositive_range (to_int b')) as Hb'.
    rewrite !encodeMove_value. lia.
Qed.

(** X4: An encoded move is the no-op entry 0 exactly when both turn amounts
    normalise to 0, that is when both are whole turns. *)
Theorem encodeMove_zero_iff :
  forall topTurns bottomTurns : Z,
    encodeMove topTurns bottomTurns = 0
    <-> (to_int topTurns) mod 18 = 0 /\ (to_int bottomTurns) mod 18 = 0.
Proof.
  intros t b. rewrite encodeMove_value, <- !wrapPositive_mod.
  pose proof (wrapPositive_range (to_int t)) as Ht.
  pose proof (wrapPositive_range (to_int b)) as Hb.
  lia.
Qed.

(** ** Rows as 18 slots *)

Lemma SLOT_MASK_ones : SLOT_MASK = Z.ones 6.
Proof. reflexivity. Qed.

Lemma row_slot_bits (row : Row) (i k : Z) :
  0 <= i < 18 -> 0 <= k ->
  Z.testbit (row_slot row i) k = (k <? 6) && Z.testbit row (k + (17 - i) * 6).
Proof.
  intros Hi Hk. unfold row_slot, SLOTS_PER_ROW, SLOT_SIZE.
  rewrite SLOT_MASK_ones, Z.land_spec, Z.testbit_ones_nonneg by lia.
  rewrite Z.shiftr_spec by assumption.
  replace (18 - 1 - i) with (17 - i) by lia.
  apply andb_comm.
Qed.

Lemma row_slot_range (row : Row) (i : Z) : 0 <= row_slot row i < 64.
Proof.
  unfold row_slot. rewrite SLOT_MASK_ones, Z.land_ones by lia.
  apply Z.mod_pos_bound. reflexivity.
Qed.

Section Slots.

Variable shl_oob : Row -> Z -> Z.

Lemma turnRow_slot (row : Row) (slots i : Z) :
  row_clean row -> shifts_in_range slots -> 0 <= i < 18 ->
  row_slot (turnRow shl_oob row slots) i = row_slot row ((i - slots) mod 18).
Proof.
  intros Hrow Hs Hi.
  pose proof (Z.mod_pos_bound (i - slots) 18 ltac:(lia)) as Hj.
  apply Z.bits_inj'. intros k Hk.
  rewrite !row_slot_bits by assumption.
  destruct (Z.ltb_spec k 6) as [Hlt | Hge]; cbn [andb]; [| reflexivity].
  rewrite turnRow_bits by (try assumption; try (left; assumption); lia).
  destruct (Z.ltb_spec (k + (17 - i) * 6) 108); [| lia].
  cbn [andb]. f_equal.
  rewrite wrapPositive_mod.
  Z.div_mod_to_equations. lia.
Qed.

(** X5: Turning a row by [slots] moves the content of every slot [slots]
    positions on, around the 18 slots: slot [i] of the turned row is slot
    [i - slots] (modulo 18) of the row.  This holds wherever [turnRow]
    shifts within the width of a row. *)
Theorem turnRow_rotates_slots :
  forall (row : Row) (slots i : Z),
    row_clean row -> shifts_in_range slots -> 0 <= i < 18 ->
    row_slot (turnRow shl_oob row slots) i = row_slot row ((i - slots) mod 18).
Proof. exact turnRow_slot. Qed.

Lemma turnRow_back (row : Row) (slots : Z) :
  row_clean row -> shifts_in_range slots ->
  turnRow shl_oob (turnRow shl_oob row slots) (- slots) = row.
Proof.
  intros Hrow Hs.
  assert (Hneg : shifts_in_range (- slots)).
  { destruct Hs as [-> | Hs]; [left; reflexivity | right].
    intros Hc. apply Hs. Z.div_mod_to_equations. lia. }
  rewrite turnRow_compose; [| exact Hrow |].
  - rewrite Z.add_opp_diag_r. reflexivity.
  - left. rewrite Z.add_opp_diag_r.
    split; [exact Hs | split; [exact Hneg | left; reflexivity]].
Qed.

(** X6: Turns compose by adding their amounts: on rows with no bit above
    107, where the two amounts of each row and their sum are amounts at
    which [turnRow] shifts within the width of a row, [turn(a, b)] followed
    by [turn(c, d)] leaves the puzzle [turn(a + c, b + d)] leaves. *)
Theorem turn_then_turn :
  forall (p : Puzzle) (a b c d : Z),
    puzzle_clean p ->
    shifts_in_range a -> shifts_in_range c -> shifts_in_range (a + c) ->
    shifts_in_range b -> shifts_in_range d -> shifts_in_range (b + d) ->
    (turn shl_oob a b ;; turn shl_oob c d) p = turn shl_oob (a + c) (b + d) p.
Proof.
  intros [t u] a b c d [Ht Hu] Ha Hc Hac Hb Hd Hbd. unfold bind, turn. simpl in *.
  rewrite (turnRow_compose shl_oob t a c Ht) by (left; auto).
  rewrite (turnRow_compose shl_oob u b d Hu) by (left; auto).
  reflexivity.
Qed.

(** X7: A turn is undone by the opposite turn: on rows with no bit above 107
    and amounts at which [turnRow] shifts within the width of a row,
    [turn(a, b)] followed by [turn(-a, -b)] gives the puzzle back. *)
Theorem turn_then_opposite_turn :
  forall (p : Puzzle) (topTurns bottomTurns : Z),
    puzzle_clean p -> shifts_in_range topTurns -> shifts_in_range bottomTurns ->
    (turn shl_oob topTurns bottomTurns ;; turn shl_oob (- topTurns) (- bottomTurns)) p
    = (Returns tt, p).
Proof.
  intros [t b] a c [Ht Hb] Ha Hc. unfold bind, turn. simpl in *.
  rewrite !turnRow_back by assumption. reflexivity.
Qed.

End Slots.

Lemma turnRow_rotates_slots_witness :
  row_clean SOLVED_TOP /\ shifts_in_range 4 /\ 0 <= 4 < 18
  /\ row_slot (turnRow shl_count_masked SOLVED_TOP 4) 4 = row_slot SOLVED_TOP ((4 - 4) mod 18).
Proof.
  assert (Hr : row_clean SOLVED_TOP) by (split; [discriminate | reflexivity]).
  assert (Hs : shifts_in_range 4) by (right; discriminate).
  assert (Hi : 0 <= 4 < 18) by lia.
  split; [exact Hr | split; [exact Hs | split; [exact Hi |]]].
  apply (turnRow_rotates_slots shl_count_masked SOLVED_TOP 4 4 Hr Hs Hi).
Defined.

Lemma turn_then_turn_witness :
  (turn shl_count_masked 15 1 ;; turn shl_count_masked 6 2) Puzzle_default
  = turn shl_count_masked (15 + 6) (1 + 2) Puzzle_default.
Proof.
  apply (turn_then_turn shl_count_masked Puzzle_default 15 1 6 2);
    try (right; discriminate).
  split; (split; [discriminate | reflexivity]).
Defined.

Lemma turn_then_opposite_turn_witness :
  (turn shl_count_masked 3 17 ;; turn shl_count_masked (- 3) (- 17)) Puzzle_default
  = (Returns tt, Puzzle_default).
Proof.
  apply (turn_then_opposite_turn shl_count_masked Puzzle_default 3 17).
  - split; (split; [discriminate | reflexivity]).
  - right. discriminate.
  - right. discriminate.
Defined.

(** ** Slice on slots *)

Lemma HALF_MASK_bits (j : Z) :
  0 <= j -> Z.testbit HALF_MASK j = (54 <=? j) && (j <? 108).
Proof.
  intros Hj. change HALF_MASK with (Z.shiftl (Z.ones 54) 54).
  rewrite Z.shiftl_spec by assumption.
  destruct (Z.leb_spec 54 j) as [Hge | Hlt].
  - rewrite Z.testbit_ones_nonneg by lia.
    destruct (Z.ltb_spec (j - 54) 54), (Z.ltb_spec j 108); try lia; reflexivity.
  - rewrite Z.testbit_neg_r by lia. reflexivity.
Qed.

Lemma swap_top_slot (t b : Row) (i : Z) :
  0 <= i < 18 ->
  row_slot (swap_top t b) i = if i <? 9 then row_slot b i else row_slot t i.
Proof.
  intros Hi. apply Z.bits_inj'. intros k Hk.
  assert (Hbits : Z.testbit (row_slot (swap_top t b) i) k
                  = (k <? 6) && Z.testbit (if i <? 9 then b else t) (k + (17 - i) * 6)).
  { rewrite row_slot_bits by assumption.
    destruct (Z.ltb_spec k 6) as [Hlt | Hge]; cbn [andb]; [| reflexivity].
    unfold swap_top.
    rewrite Z.lor_spec, !Z.land_spec, not128_spec, HALF_MASK_bits by lia.
    destruct (Z.ltb_spec i 9);
      destruct (Z.leb_spec 54 (k + (17 - i) * 6));
      destruct (Z.ltb_spec (k + (17 - i) * 6) 108);
      destruct (Z.ltb_spec (k + (17 - i) * 6) 128); try lia;
      cbn [andb xorb orb]; rewrite ?andb_true_r, ?andb_false_r, ?orb_false_r;
      reflexivity. }
  rewrite Hbits.
  destruct (i <? 9); rewrite row_slot_bits by assumption; reflexivity.
Qed.

(** X8: Where [canSlice] holds, [slice] returns and exchanges slots 0 to 8 of
    the two rows, slot by slot, and leaves slots 9 to 17 of each row where
    they were. *)
Theorem slice_exchanges_first_nine_slots :
  forall (p : Puzzle) (i : Z),
    canSlice p = true -> 0 <= i < 18 ->
    fst (slice p) = Returns tt
    /\ row_slot (top (snd (slice p))) i
       = (if i <? 9 then row_slot (bottom p) i else row_slot (top p) i)
    /\ row_slot (bottom (snd (slice p))) i
       = (if i <? 9 then row_slot (top p) i else row_slot (bottom p) i).
Proof.
  intros p i Hc Hi. rewrite (slice_returns p Hc). simpl.
  split; [reflexivity |]. split; apply swap_top_slot; assumption.
Qed.

Lemma slice_exchanges_first_nine_slots_witness :
  row_slot (top (snd (slice Puzzle_default))) 3 = row_slot (bottom Puzzle_default) 3.
Proof.
  apply (slice_exchanges_first_nine_slots Puzzle_default 3); [reflexivity | lia].
Defined.

(** ** What the predicates test, slot by slot *)

Lemma land_bit_zero (x b : Z) :
  0 <= b -> (Z.land x (Z.shiftl 1 b) = 0 <-> Z.testbit x b = false).
Proof.
  intros Hb. rewrite Z.shiftl_1_l. split.
  - intros H. pose proof (land_zero_bit x (2 ^ b) b H) as Hbit.
    rewrite Z.pow2_bits_true in Hbit by assumption.
    rewrite andb_true_r in Hbit. exact Hbit.
  - intros H. apply Z.bits_inj'. intros i Hi.
    rewrite Z.land_spec, Z.bits_0, Z.pow2_bits_eqb by assumption.
    destruct (Z.eqb_spec b i) as [<- | Hne].
    + rewrite H. reflexivity.
    + apply andb_false_r.
Qed.

Lemma land_bits_mask (x : Z) (positions : list Z) :
  Forall (fun b => 0 <= b) positions ->
  (Z.land x (bits_mask positions) = 0
   <-> Forall (fun b => Z.testbit x b = false) positions).
Proof.
  induction 1 as [| b positions Hb Hpos IH]; simpl.
  - rewrite Z.land_0_r. split; [constructor | reflexivity].
  - rewrite Z.land_lor_distr_r, Z.lor_eq_0_iff, land_bit_zero, IH by assumption.
    split.
    + intros [H1 H2]. constructor; assumption.
    + intros H. inversion H; subst. split; assumption.
Qed.

Lemma slot_bit (row : Row) (i k : Z) :
  0 <= i < 18 -> 0 <= k < 6 ->
  Z.testbit (row_slot row i) k = Z.testbit row (k + (17 - i) * 6).
Proof.
  intros Hi Hk. rewrite row_slot_bits by lia.
  destruct (Z.ltb_spec k 6); [reflexivity | lia].
Qed.

Lemma SLICE_MASK_positions : SLICE_MASK = bits_mask [106; 52].
Proof. reflexivity. Qed.

Lemma slice_mask_slots (row : Row) :
  Z.land row SLICE_MASK = 0
  <-> Z.testbit (row_slot row 0) 4 = false /\ Z.testbit (row_slot row 9) 4 = false.
Proof.
  rewrite SLICE_MASK_positions, land_bits_mask by (repeat constructor; discriminate).
  rewrite !slot_bit by lia. simpl.
  split.
  - intros H. inversion H as [| ? ? H1 H']; subst. inversion H' as [| ? ? H2 _]; subst.
    split; assumption.
  - intros [H1 H2]. repeat constructor; assumption.
Qed.

(** X9: [canSlice] looks at two slots of each row, slot 0 and slot 9 (the
    first slot of each half): it holds exactly when the corner-parity bit
    (the second bit from the top of the slot) is clear in both of them, in
    both rows; [canSliceTop] and [canSliceBottom] are the two halves of
    that test. *)
Theorem canSlice_tests_slots_0_and_9 :
  forall p : Puzzle,
    (canSliceTop p = true
     <-> Z.testbit (row_slot (top p) 0) 4 = false
         /\ Z.testbit (row_slot (top p) 9) 4 = false)
    /\ (canSliceBottom p = true
        <-> Z.testbit (row_slot (bottom p) 0) 4 = false
            /\ Z.testbit (row_slot (bottom p) 9) 4 = false)
    /\ canSlice p = canSliceTop p && canSliceBottom p.
Proof.
  intros p. unfold canSliceTop, canSliceBottom.
  rewrite !Z.eqb_eq, !slice_mask_slots.
  split; [reflexivity | split; reflexivity].
Qed.

Lemma upto_forall (n : nat) (P : Z -> Prop) :
  Forall P (upto n) <-> (forall j, 0 <= j < Z.of_nat n -> P j).
Proof.
  unfold upto. rewrite Forall_forall. split.
  - intros H j Hj. apply H. apply in_map_iff. exists (Z.to_nat j).
    split; [lia | apply in_seq; lia].
  - intros H j Hin. apply in_map_iff in Hin. destruct Hin as (m & <- & Hm).
    apply in_seq in Hm. apply H. lia.
Qed.

(** A mask with bit [k] of each of the slots [slot_of 0 .. slot_of (n-1)]. *)
Lemma mask_slots (row mask : Z) (n : nat) (slot_of : Z -> Z) (k : Z) :
  mask = bits_mask (map (fun j => k + (17 - slot_of j) * 6) (upto n)) ->
  (forall j, 0 <= j < Z.of_nat n -> 0 <= slot_of j < 18) ->
  0 <= k < 6 ->
  (Z.land row mask = 0
   <-> forall j, 0 <= j < Z.of_nat n -> Z.testbit (row_slot row (slot_of j)) k = false).
Proof.
  intros -> Hslots Hk.
  rewrite land_bits_mask.
  - rewrite Forall_map, upto_forall.
    split; intros H j Hj; specialize (H j Hj);
      rewrite slot_bit in * by (try apply Hslots; assumption); exact H.
  - rewrite Forall_map, upto_forall. intros j Hj.
    specialize (Hslots j Hj). lia.
Qed.

Lemma top_cube_shape_slots (row : Row) :
  Z.land row TOP_CUBE_SHAPE = 0
  <-> forall j, 0 <= j < 6 -> Z.testbit (row_slot row (3 * j + 2)) 0 = false.
Proof.
  apply (mask_slots row TOP_CUBE_SHAPE 6 (fun j => 3 * j + 2) 0);
    [reflexivity | intros j Hj; cbv beta; lia | lia].
Qed.

Lemma bottom_cube_shape_slots (row : Row) :
  Z.land row BOTTOM_CUBE_SHAPE = 0
  <-> forall j, 0 <= j < 6 -> Z.testbit (row_slot row (3 * j)) 0 = false.
Proof.
  apply (mask_slots row BOTTOM_CUBE_SHAPE 6 (fun j => 3 * j) 0);
    [reflexivity | intros j Hj; cbv beta; lia | lia].
Qed.

Lemma orientation_mask_slots (row : Row) :
  Z.land row ROW_ORIENTATION_MASK = 0
  <-> forall i, 0 <= i < 18 -> Z.testbit (row_slot row i) 5 = false.
Proof.
  apply (mask_slots row ROW_ORIENTATION_MASK 18 (fun i => i) 5);
    [reflexivity | intros j Hj; cbv beta; lia | lia].
Qed.

Lemma orientation_mask_slots_not (row : Row) :
  Z.land (not128 row) ROW_ORIENTATION_MASK = 0
  <-> forall i, 0 <= i < 18 -> Z.testbit (row_slot row i) 5 = true.
Proof.
  rewrite orientation_mask_slots.
  split; intros H i Hi; specialize (H i Hi);
    rewrite slot_bit in * by lia;
    rewrite not128_spec in * by lia;
    (destruct (Z.ltb_spec (5 + (17 - i) * 6) 128); [| lia]);
    destruct (Z.testbit row (5 + (17 - i) * 6)); simpl in *; congruence.
Qed.

Lemma cubeShape_slots (p : Puzzle) :
  cubeShape p = true
  <-> (forall j, 0 <= j < 6 -> Z.testbit (row_slot (top p) (3 * j + 2)) 0 = false)
      /\ (forall j, 0 <= j < 6 -> Z.testbit (row_slot (bottom p) (3 * j)) 0 = false).
Proof.
  unfold cubeShape.
  rewrite andb_true_iff, !Z.eqb_eq, top_cube_shape_slots, bottom_cube_shape_slots.
  reflexivity.
Qed.

Lemma isRowOrientationSolved_slots (p : Puzzle) :
  isRowOrientationSolved p = true
  <-> (forall i, 0 <= i < 18 -> Z.testbit (row_slot (top p) i) 5 = false)
      /\ (forall i, 0 <= i < 18 -> Z.testbit (row_slot (bottom p) i) 5 = true).
Proof.
  unfold isRowOrientationSolved.
  rewrite andb_true_iff, !Z.eqb_eq, orientation_mask_slots, orientation_mask_slots_not.
  reflexivity.
Qed.

(** X10: [cubeShape] looks at the lowest bit (the corner flag) of every third
    slot: it holds exactly when that bit is clear in slots 2, 5, 8, 11, 14
    and 17 of the top row and in slots 0, 3, 6, 9, 12 and 15 of the bottom
    row.  No other bit of the puzzle matters to it. *)
Theorem cubeShape_tests_edge_slots :
  forall p : Puzzle,
    cubeShape p = true
    <-> (forall j, 0 <= j < 6 -> Z.testbit (row_slot (top p) (3 * j + 2)) 0 = false)
        /\ (forall j, 0 <= j < 6 -> Z.testbit (row_slot (bottom p) (3 * j)) 0 = false).
Proof. exact cubeShape_slots. Qed.

(** X11: [isRowOrientationSolved] looks at the top bit (the face parity) of
    every slot: it holds exactly when that bit is clear in all 18 slots of
    the top row and set in all 18 slots of the bottom row. *)
Theorem isRowOrientationSolved_tests_face_bits :
  forall p : Puzzle,
    isRowOrientationSolved p = true
    <-> (forall i, 0 <= i < 18 -> Z.testbit (row_slot (top p) i) 5 = false)
        /\ (forall i, 0 <= i < 18 -> Z.testbit (row_slot (bottom p) i) 5 = true).
Proof. exact isRowOrientationSolved_slots. Qed.

(** ** What turns keep *)

Lemma around_18 (P : Z -> Prop) (a : Z) :
  (forall i, 0 <= i < 18 -> P ((i - a) mod 18)) <-> (forall i, 0 <= i < 18 -> P i).
Proof.
  split; intros H i Hi.
  - replace i with (((i + a) mod 18 - a) mod 18)
      by (Z.div_mod_to_equations; lia).
    apply H. apply Z.mod_pos_bound. lia.
  - apply H. apply Z.mod_pos_bound. lia.
Qed.

Lemma around_6 (P : Z -> Prop) (c r : Z) :
  0 <= r < 3 ->
  (forall j, 0 <= j < 6 -> P ((3 * j + r - 3 * c) mod 18))
  <-> (forall j, 0 <= j < 6 -> P (3 * j + r)).
Proof.
  intros Hr. split; intros H j Hj.
  - replace (3 * j + r) with ((3 * ((j + c) mod 6) + r - 3 * c) mod 18)
      by (Z.div_mod_to_equations; lia).
    apply H. apply Z.mod_pos_bound. lia.
  - replace ((3 * j + r - 3 * c) mod 18) with (3 * ((j - c) mod 6) + r)
      by (Z.div_mod_to_equations; lia).
    apply H. apply Z.mod_pos_bound. lia.
Qed.

Section TurnsKeep.

Variable shl_oob : Row -> Z -> Z.

Lemma turnRow_slot_bit_all (row : Row) (slots k : Z) (v : bool) :
  row_clean row -> shifts_in_range slots ->
  (forall i, 0 <= i < 18 -> Z.testbit (row_slot (turnRow shl_oob row slots) i) k = v)
  <-> (forall i, 0 <= i < 18 -> Z.testbit (row_slot row i) k = v).
Proof.
  intros Hrow Hs.
  rewrite <- (around_18 (fun i => Z.testbit (row_slot row i) k = v) slots).
  split; intros H i Hi; specialize (H i Hi);
    rewrite (turnRow_slot shl_oob row slots i Hrow Hs Hi) in *; exact H.
Qed.

(** X12: No turn changes [isRowOrientationSolved]: on rows with no bit above
    107 and amounts at which [turnRow] shifts within the width of a row,
    the predicate has the same value before and after [turn].  Only a
    slice can change it. *)
Theorem turn_keeps_isRowOrientationSolved :
  forall (p : Puzzle) (topTurns bottomTurns : Z),
    puzzle_clean p -> shifts_in_range topTurns -> shifts_in_range bottomTurns ->
    isRowOrientationSolved (snd (turn shl_oob topTurns bottomTurns p))
    = isRowOrientationSolved p.
Proof.
  intros p a b [Ht Hb] Ha Hc.
  apply eq_iff_eq_true.
  rewrite !isRowOrientationSolved_slots. cbn [turn snd top bottom].
  rewrite (turnRow_slot_bit_all (top p) a 5 false Ht Ha).
  rewrite (turnRow_slot_bit_all (bottom p) b 5 true Hb Hc).
  reflexivity.
Qed.

Lemma turnRow_slot_bit_thirds (row : Row) (slots r : Z) :
  row_clean row -> shifts_in_range slots -> slots mod 3 = 0 -> 0 <= r < 3 ->
  (forall j, 0 <= j < 6 -> Z.testbit (row_slot (turnRow shl_oob row slots) (3 * j + r)) 0 = false)
  <-> (forall j, 0 <= j < 6 -> Z.testbit (row_slot row (3 * j + r)) 0 = false).
Proof.
  intros Hrow Hs H3 Hr.
  assert (Hc : slots = 3 * (slots / 3)) by (Z.div_mod_to_equations; lia).
  rewrite <- (around_6 (fun i => Z.testbit (row_slot row i) 0 = false) (slots / 3) r Hr).
  rewrite <- Hc.
  split; intros H j Hj; specialize (H j Hj);
    rewrite (turnRow_slot shl_oob row slots (3 * j + r) Hrow Hs ltac:(lia)) in *; exact H.
Qed.

(** X13: Turns by a multiple of 3 slots keep [cubeShape]: on rows with no bit
    above 107, where both amounts are multiples of 3 at which [turnRow]
    shifts within the width of a row, the predicate has the same value
    before and after [turn]. *)
Theorem turn_by_thirds_keeps_cubeShape :
  forall (p : Puzzle) (topTurns bottomTurns : Z),
    puzzle_clean p ->
    shifts_in_range topTurns -> shifts_in_range bottomTurns ->
    topTurns mod 3 = 0 -> bottomTurns mod 3 = 0 ->
    cubeShape (snd (turn shl_oob topTurns bottomTurns p)) = cubeShape p.
Proof.
  intros p a b [Ht Hb] Ha Hc Ha3 Hb3.
  apply eq_iff_eq_true.
  rewrite !cubeShape_slots. cbn [turn snd top bottom].
  rewrite (turnRow_slot_bit_thirds (top p) a 2 Ht Ha Ha3 ltac:(lia)).
  pose proof (turnRow_slot_bit_thirds (bottom p) b 0 Hb Hc Hb3 ltac:(lia)) as Hbot.
  assert (Hbot' :
    (forall j, 0 <= j < 6 -> Z.testbit (row_slot (turnRow shl_oob (bottom p) b) (3 * j)) 0 = false)
    <-> (forall j, 0 <= j < 6 -> Z.testbit (row_slot (bottom p) (3 * j)) 0 = false)).
  { split; intros H j Hj.
    - rewrite <- (Z.add_0_r (3 * j)). apply Hbot; [| exact Hj].
      intros j' Hj'. rewrite Z.add_0_r. apply H. exact Hj'.
    - rewrite <- (Z.add_0_r (3 * j)). apply Hbot; [| exact Hj].
      intros j' Hj'. rewrite Z.add_0_r. apply H. exact Hj'. }
  rewrite Hbot'. reflexivity.
Qed.

End TurnsKeep.

Lemma turn_keeps_isRowOrientationSolved_witness :
  isRowOrientationSolved (snd (turn shl_count_masked 1 17 Puzzle_default))
  = isRowOrientationSolved Puzzle_default.
Proof.
  apply (turn_keeps_isRowOrientationSolved shl_count_masked Puzzle_default 1 17).
  - split; (split; [discriminate | reflexivity]).
  - right. discriminate.
  - right. discriminate.
Defined.

Lemma turn_by_thirds_keeps_cubeShape_witness :
  cubeShape (snd (turn shl_count_masked 3 15 Puzzle_default)) = cubeShape Puzzle_default.
Proof.
  apply (turn_by_thirds_keeps_cubeShape shl_count_masked Puzzle_default 3 15).
  - split; (split; [discriminate | reflexivity]).
  - right. discriminate.
  - right. discriminate.
  - reflexivity.
  - reflexivity.
Defined.

(** ** [move] with a log *)

(** X14: [move(moves, topTurns, bottomTurns)] turns first and slices second.
    When the turned puzzle can be sliced it returns with the encoded move
    appended to the list; when it cannot, the exception of [slice] leaves
    it with the puzzle turned but not sliced, and nothing is appended. *)
Theorem move_logged_turns_before_it_may_throw :
  forall (shl_oob : Row -> Z -> Z) (moves : list Z) (topTurns bottomTurns : Z) (p : Puzzle),
    let turned := snd (turn shl_oob topTurns bottomTurns p) in
    (canSlice turned = true ->
     move_logged shl_oob moves topTurns bottomTurns p
     = (Returns (moves ++ [encodeMove topTurns bottomTurns]), snd (slice turned)))
    /\ (canSlice turned = false ->
        move_logged shl_oob moves topTurns bottomTurns p
        = (Throws slice_unavailable, turned)).
Proof.
  intros shl_oob moves a b p turned. unfold move_logged, move, bind.
  change (turn shl_oob a b p) with (Returns tt, turned).
  split; intros Hc.
  - rewrite (slice_returns turned Hc). reflexivity.
  - rewrite (slice_throws turned Hc). reflexivity.
Qed.

Lemma move_logged_turns_before_it_may_throw_witness :
  move_logged shl_count_masked [] 17 0 Puzzle_default
  = (Throws slice_unavailable, snd (turn shl_count_masked 17 0 Puzzle_default)).
Proof.
  apply (proj2 (move_logged_turns_before_it_may_throw
                  shl_count_masked [] 17 0 Puzzle_default)).
  reflexivity.
Defined.

(** ** The search: what it announces *)

Lemma and_then_exit (c k : control) (ms : list Z) (e : bool) :
  c >>> k = Exit ms e -> c = Exit ms e \/ (c = Continue /\ k = Exit ms e).
Proof.
  destruct c; simpl; intros H.
  - right. split; [reflexivity | exact H].
  - left. exact H.
  - discriminate H.
Qed.

Lemma for_each_exit {A : Type} (l : list A) (body : A -> control) (ms : list Z) (e : bool) :
  for_each l body = Exit ms e -> exists x, In x l /\ body x = Exit ms e.
Proof.
  induction l as [| x l IH]; simpl; intros H; [discriminate H |].
  apply and_then_exit in H. destruct H as [H | [_ H]].
  - exists x. split; [left; reflexivity | exact H].
  - destruct (IH H) as (y & Hy & Hbody). exists y. split; [right; exact Hy | exact Hbody].
Qed.

Lemma for_each_ext {A : Type} (l : list A) (f g : A -> control) :
  (forall x, In x l -> f x = g x) -> for_each l f = for_each l g.
Proof.
  induction l as [| x l IH]; intros H; simpl; [reflexivity |].
  rewrite (H x) by (left; reflexivity).
  rewrite IH by (intros y Hy; apply H; right; exact Hy).
  reflexivity.
Qed.

Lemma checkSolved_exit (q : Puzzle) (ms ms' : list Z) (e e' : bool) :
  checkSolved q ms' e' = Exit ms e ->
  ms = ms' /\ e = e' /\ cubeShape q = true /\ isRowOrientationSolved q = true.
Proof.
  unfold checkSolved.
  destruct (cubeShape q), (isRowOrientationSolved q); simpl; intros H;
    try discriminate H.
  injection H as <- <-. repeat split; reflexivity.
Qed.

Lemma MOVES_small (a : Z) : In a MOVES -> 0 <= a < 18.
Proof.
  unfold MOVES. simpl. intros H.
  repeat (destruct H as [<- | H]; [lia |]). contradiction.
Qed.

Lemma MOVES_in_range (a : Z) : In a MOVES -> shifts_in_range (to_int a).
Proof.
  unfold MOVES. simpl. intros H.
  repeat (destruct H as [<- | H];
          [first [left; reflexivity | right; discriminate] |]).
  contradiction.
Qed.

Lemma MOVES_to_int (a : Z) : In a MOVES -> to_int a = a.
Proof. intros H. apply MOVES_small in H. apply to_int_small. lia. Qed.

Lemma decode_search_entry (a b : Z) :
  In a MOVES -> In b MOVES -> decodeMove (encodeMove a b) = (a, b).
Proof.
  intros Ha Hb. rewrite encodeMove_small by (apply MOVES_small; assumption).
  apply decode_packed; apply MOVES_small; assumption.
Qed.

Section Announced.

Variable shl_oob : Row -> Z -> Z.

Lemma both_turns (p : Puzzle) (a b : Z) :
  snd (turn shl_oob 0 b (clone (snd (turn shl_oob a 0 (clone p)))))
  = snd (turn shl_oob a b p).
Proof. reflexivity. Qed.

Lemma bottom_loop_announces next (p : Puzzle) (a : Z) (moves : list Z) (budget : Z) :
  In a MOVES -> 1 <= budget ->
  (forall q m, announces_replayable shl_oob q m (budget - 1) (next q m)) ->
  announces_replayable shl_oob p moves budget
    (bottom_loop shl_oob next (snd (turn shl_oob (to_int a) 0 (clone p))) a moves).
Proof.
  intros Ha Hbudget Hnext reported e Hexit.
  unfold bottom_loop in Hexit.
  apply for_each_exit in Hexit. destruct Hexit as (b & Hb & Hbody).
  cbv beta zeta in Hbody.
  rewrite both_turns, (MOVES_to_int a Ha), (MOVES_to_int b Hb) in Hbody.
  set (bottomNext := snd (turn shl_oob a b p)) in *.
  assert (Hentry : search_entry (encodeMove a b))
    by (exists a, b; repeat split; assumption).
  assert (Hturn : turn shl_oob a b p = (Returns tt, bottomNext)) by reflexivity.
  destruct (canSliceBottom bottomNext); cbn [negb] in Hbody; [| discriminate Hbody].
  apply and_then_exit in Hbody. destruct Hbody as [Hpre | [_ Hrest]].
  - apply checkSolved_exit in Hpre. destruct Hpre as (-> & -> & Hshape & Horient).
    exists [encodeMove a b], bottomNext.
    split; [reflexivity |]. split; [discriminate |]. split; [simpl; lia |].
    split; [constructor; [exact Hentry | constructor] |].
    split; [| split; assumption].
    cbn [replay]. rewrite (decode_search_entry a b Ha Hb). exact Hturn.
  - destruct (slice bottomNext) as [[[] | what] sliced] eqn:Hslice;
      [| discriminate Hrest].
    assert (Hmove : move shl_oob a b p = (Returns tt, sliced))
      by (unfold move, bind; rewrite Hturn; exact Hslice).
    apply and_then_exit in Hrest. destruct Hrest as [Hpost | [_ Hdeeper]].
    + apply checkSolved_exit in Hpost. destruct Hpost as (-> & -> & Hshape & Horient).
      exists [encodeMove a b], sliced.
      split; [reflexivity |]. split; [discriminate |]. split; [simpl; lia |].
      split; [constructor; [exact Hentry | constructor] |].
      split; [| split; assumption].
      cbn [replay]. rewrite (decode_search_entry a b Ha Hb). exact Hmove.
    + apply Hnext in Hdeeper.
      destruct Hdeeper as (added & final & -> & Hne & Hlen & Hall & Hreplay & Hshape & Horient).
      exists (encodeMove a b :: added), final.
      split; [unfold push_back; rewrite <- app_assoc; reflexivity |].
      split; [discriminate |].
      split; [cbn [length]; lia |].
      split; [constructor; assumption |].
      split; [| split; assumption].
      destruct added as [| m added]; [contradiction |].
      cbn [replay]. rewrite (decode_search_entry a b Ha Hb).
      unfold bind at 1. rewrite Hmove. exact Hreplay.
Qed.

Lemma top_loop_announces next (p : Puzzle) (moves : list Z) (budget : Z) :
  1 <= budget ->
  (forall q m, announces_replayable shl_oob q m (budget - 1) (next q m)) ->
  announces_replayable shl_oob p moves budget (top_loop shl_oob next p moves).
Proof.
  intros Hbudget Hnext reported e Hexit.
  unfold top_loop in Hexit.
  apply for_each_exit in Hexit. destruct Hexit as (a & Ha & Hbody).
  cbv beta zeta in Hbody.
  destruct (canSliceTop _); cbn [negb] in Hbody; [| discriminate Hbody].
  exact (bottom_loop_announces next p a moves budget Ha Hbudget Hnext reported e Hbody).
Qed.

Lemma solve_levels_announces (levels : nat) :
  forall p moves depth,
    announces_replayable shl_oob p moves (9 - depth)
      (solve_levels shl_oob levels p moves depth).
Proof.
  induction levels as [| levels IH]; intros p moves depth; cbn [solve_levels];
    destruct (Z.gtb_spec depth 8) as [Hgt | Hle];
    try (intros reported e H; discriminate H).
  apply top_loop_announces; [lia |].
  intros q m. replace (9 - depth - 1) with (9 - (depth + 1)) by lia. apply IH.
Qed.

(** X15: Whatever the search announces can be replayed: when [solve], started
    at a puzzle with a move list at some depth, ends the process with a
    reported list, that list is the given list followed by between 1 and
    [9 - depth] entries recorded from [MOVES], and replaying the new
    entries on the puzzle (a turn and a slice each, the last slice only if
    [endsOnSlice]) never throws and ends in a puzzle where [cubeShape] and
    [isRowOrientationSolved] hold.  The same holds, with up to 9 entries,
    for every task of [solveMultithread]. *)
Theorem search_announces_only_replayable_lists :
  (forall p moves depth,
      announces_replayable shl_oob p moves (9 - depth) (solve shl_oob p moves depth))
  /\ (forall start baseMoves task,
         In task (solveMultithread_tasks shl_oob start baseMoves) ->
         announces_replayable shl_oob start baseMoves 9 task).
Proof.
  split.
  - intros p moves depth. apply solve_levels_announces.
  - intros start baseMoves task Hin.
    unfold solveMultithread_tasks in Hin.
    apply in_flat_map in Hin. destruct Hin as (a & Ha & Hin).
    cbv beta zeta in Hin.
    destruct (canSliceTop _); cbn [negb] in Hin; [| contradiction].
    destruct Hin as [<- | []].
    apply bottom_loop_announces; [exact Ha | lia |].
    intros q m. apply (solve_levels_announces _ q m 1).
Qed.

End Announced.

Lemma search_announces_only_replayable_lists_witness :
  exists added final,
    [encodeMove 0 0] = [] ++ added
    /\ added <> []
    /\ Z.of_nat (length added) <= 9 - 8
    /\ Forall search_entry added
    /\ replay shl_count_masked added false Puzzle_default = (Returns tt, final)
    /\ cubeShape final = true
    /\ isRowOrientationSolved final = true.
Proof.
  apply (proj1 (search_announces_only_replayable_lists shl_count_masked)
               Puzzle_default [] 8 [encodeMove 0 0] false).
  reflexivity.
Defined.

(** ** The search: what it rules out *)

Lemma and_then_continue (c k : control) :
  c >>> k = Continue -> c = Continue /\ k = Continue.
Proof. destruct c; simpl; intros H; [split; [reflexivity | exact H] | discriminate H ..]. Qed.

Lemma for_each_continue {A : Type} (l : list A) (body : A -> control) :
  for_each l body = Continue -> forall x, In x l -> body x = Continue.
Proof.
  induction l as [| y l IH]; simpl; intros H x Hx; [contradiction |].
  apply and_then_continue in H. destruct H as [Hy Hl].
  destruct Hx as [<- | Hx]; [exact Hy | apply IH; assumption].
Qed.

Lemma checkSolved_continue (q : Puzzle) (ms : list Z) (e : bool) :
  checkSolved q ms e = Continue -> cubeShape q && isRowOrientationSolved q = false.
Proof.
  unfold checkSolved. destruct (cubeShape q && isRowOrientationSolved q); intros H;
    [discriminate H | reflexivity].
Qed.

Section RuledOut.

Variable shl_oob : Row -> Z -> Z.

Lemma move_returns (p sliced : Puzzle) (a b : Z) :
  move shl_oob a b p = (Returns tt, sliced) ->
  canSlice (snd (turn shl_oob a b p)) = true
  /\ slice (snd (turn shl_oob a b p)) = (Returns tt, sliced).
Proof.
  unfold move, bind.
  change (turn shl_oob a b p) with (Returns tt, snd (turn shl_oob a b p)).
  cbv iota beta. intros H.
  destruct (canSlice (snd (turn shl_oob a b p))) eqn:Hc.
  - split; [exact Hc | exact H].
  - rewrite (slice_throws _ Hc) in H. discriminate H.
Qed.

Lemma bottom_loop_continue next (p : Puzzle) (a b : Z) (moves : list Z) :
  In a MOVES -> In b MOVES ->
  bottom_loop shl_oob next (snd (turn shl_oob (to_int a) 0 (clone p))) a moves = Continue ->
  forall sliced,
    move shl_oob a b p = (Returns tt, sliced) ->
    cubeShape (snd (turn shl_oob a b p))
      && isRowOrientationSolved (snd (turn shl_oob a b p)) = false
    /\ cubeShape sliced && isRowOrientationSolved sliced = false
    /\ next sliced (push_back moves (encodeMove a b)) = Continue.
Proof.
  intros Ha Hb Hloop sliced Hmove.
  apply move_returns in Hmove. destruct Hmove as [Hcan Hslice].
  unfold bottom_loop in Hloop.
  pose proof (for_each_continue _ _ Hloop b Hb) as Hbody.
  cbv beta zeta in Hbody.
  rewrite both_turns, (MOVES_to_int a Ha), (MOVES_to_int b Hb) in Hbody.
  assert (Hcb : canSliceBottom (snd (turn shl_oob a b p)) = true)
    by (rewrite canSlice_split in Hcan; apply andb_true_iff in Hcan; apply Hcan).
  rewrite Hcb, Hslice in Hbody. cbn [negb] in Hbody.
  apply and_then_continue in Hbody. destruct Hbody as [Hpre Hbody].
  apply and_then_continue in Hbody. destruct Hbody as [Hpost Hnext].
  split; [exact (checkSolved_continue _ _ _ Hpre) |].
  split; [exact (checkSolved_continue _ _ _ Hpost) | exact Hnext].
Qed.

Lemma top_loop_continue next (p : Puzzle) (a b : Z) (moves : list Z) :
  In a MOVES -> In b MOVES ->
  top_loop shl_oob next p moves = Continue ->
  forall sliced,
    move shl_oob a b p = (Returns tt, sliced) ->
    cubeShape (snd (turn shl_oob a b p))
      && isRowOrientationSolved (snd (turn shl_oob a b p)) = false
    /\ cubeShape sliced && isRowOrientationSolved sliced = false
    /\ next sliced (push_back moves (encodeMove a b)) = Continue.
Proof.
  intros Ha Hb Hloop sliced Hmove.
  unfold top_loop in Hloop.
  pose proof (for_each_continue _ _ Hloop a Ha) as Hbody.
  cbv beta zeta in Hbody.
  destruct (move_returns _ _ _ _ Hmove) as [Hcan _].
  assert (Hct : canSliceTop (snd (turn shl_oob (to_int a) 0 (clone p))) = true).
  { rewrite canSlice_split in Hcan. apply andb_true_iff in Hcan.
    rewrite (MOVES_to_int a Ha). exact (proj1 Hcan). }
  rewrite Hct in Hbody. cbn [negb] in Hbody.
  exact (bottom_loop_continue next p a b moves Ha Hb Hbody sliced Hmove).
Qed.

(** One step of a replay of recorded entries. *)
Lemma replay_first (a b : Z) (rest : list Z) (e : bool) (p final : Puzzle) :
  In a MOVES -> In b MOVES -> rest <> [] ->
  replay shl_oob (encodeMove a b :: rest) e p = (Returns tt, final) ->
  exists sliced,
    move shl_oob a b p = (Returns tt, sliced)
    /\ replay shl_oob rest e sliced = (Returns tt, final).
Proof.
  intros Ha Hb Hrest. destruct rest as [| m rest]; [contradiction |].
  cbn [replay]. rewrite (decode_search_entry a b Ha Hb).
  unfold bind at 1.
  destruct (move shl_oob a b p) as [[[] | what] sliced]; intros H;
    [| discriminate H].
  exists sliced. split; [reflexivity | exact H].
Qed.

Lemma solve_levels_rules_out (levels : nat) :
  forall p moves depth,
    9 - depth <= Z.of_nat levels ->
    solve_levels shl_oob levels p moves depth = Continue ->
    rules_out shl_oob p (9 - depth).
Proof.
  induction levels as [| levels IH]; intros p moves depth Hlevels Hsolve
    added sliced Hne Hlen Hall Hreplay.
  - destruct added; [contradiction | cbn [length] in Hlen; lia].
  - cbn [solve_levels] in Hsolve.
    destruct (Z.gtb_spec depth 8) as [Hgt | Hle];
      [destruct added; [contradiction | cbn [length] in Hlen; lia] |].
    destruct added as [| m rest]; [contradiction |].
    inversion Hall as [| ? ? (a & b & Ha & Hb & ->) Hall']; subst.
    destruct rest as [| m' rest].
    + cbn [replay] in Hreplay |- *.
      rewrite (decode_search_entry a b Ha Hb) in *.
      destruct (top_loop_continue _ p a b moves Ha Hb Hsolve sliced Hreplay)
        as (Hpre & Hpost & _).
      split; [exact Hpost |].
      exists (snd (turn shl_oob a b p)). split; [reflexivity | exact Hpre].
    + destruct (replay_first a b (m' :: rest) true p sliced Ha Hb ltac:(discriminate) Hreplay)
        as (mid & Hmove & Hrest).
      destruct (top_loop_continue _ p a b moves Ha Hb Hsolve mid Hmove)
        as (_ & _ & Hnext).
      assert (Hbelow : rules_out shl_oob mid (9 - (depth + 1)))
        by (apply (IH mid (push_back moves (encodeMove a b)) (depth + 1));
            [lia | exact Hnext]).
      destruct (Hbelow (m' :: rest) sliced ltac:(discriminate)
                       ltac:(cbn [length] in *; lia) Hall' Hrest)
        as (Hpost & turned & Hturned & Hpre).
      split; [exact Hpost |].
      exists turned. split; [| exact Hpre].
      cbn [replay]. rewrite (decode_search_entry a b Ha Hb).
      unfold bind at 1. rewrite Hmove. exact Hturned.
Qed.

(** X16: The search is exhaustive within its depth: when [solve] returns
    without ending the process, no list of between 1 and [9 - depth]
    entries recorded from [MOVES], whose turns and slices can all be
    carried out from the puzzle, reaches a puzzle that [checkSolved]
    accepts, neither before nor after the last slice. *)
Theorem solve_returns_only_after_ruling_out :
  forall p moves depth,
    solve shl_oob p moves depth = Continue -> rules_out shl_oob p (9 - depth).
Proof.
  intros p moves depth. apply solve_levels_rules_out. lia.
Qed.

End RuledOut.

Lemma solve_returns_only_after_ruling_out_witness :
  solve shl_count_masked (mkPuzzle 0 0) [] 8 = Continue
  /\ rules_out shl_count_masked (mkPuzzle 0 0) (9 - 8).
Proof.
  assert (H : solve shl_count_masked (mkPuzzle 0 0) [] 8 = Continue)
    by (vm_compute; reflexivity).
  split; [exact H |].
  apply (solve_returns_only_after_ruling_out shl_count_masked (mkPuzzle 0 0) [] 8 H).
Defined.

(** ** The search never shifts out of range *)

Lemma turnRow_any_shl (f g : Row -> Z -> Z) (row : Row) (slots : Z) :
  shifts_in_range slots -> turnRow f row slots = turnRow g row slots.
Proof.
  intros Hs. unfold turnRow.
  destruct (Z.eqb_spec slots 0) as [_ | Hnz]; [reflexivity |].
  destruct Hs as [H0 | Hm]; [contradiction |].
  pose proof (wrapPositive_range slots) as Hw.
  rewrite wrapPositive_mod in *.
  cbv zeta. unfold shl128. change SLOT_SIZE with 6. change TOTAL_BITS with 128.
  destruct (Z.leb_spec 0 (128 - slots mod 18 * 6)); [| lia].
  destruct (Z.ltb_spec (128 - slots mod 18 * 6) 128); [| lia].
  reflexivity.
Qed.

Lemma flat_map_agree {A B : Type} (f g : A -> list B) (l : list A) :
  (forall x, In x l -> f x = g x) -> flat_map f l = flat_map g l.
Proof.
  induction l as [| x l IH]; intros H; simpl; [reflexivity |].
  rewrite (H x) by (left; reflexivity).
  rewrite IH by (intros y Hy; apply H; right; exact Hy).
  reflexivity.
Qed.

Section AnyShift.

Variables f g : Row -> Z -> Z.

Lemma turn_any_shl (p : Puzzle) (a b : Z) :
  shifts_in_range a -> shifts_in_range b -> turn f a b p = turn g a b p.
Proof.
  intros Ha Hb. unfold turn.
  rewrite (turnRow_any_shl f g (top p) a Ha), (turnRow_any_shl f g (bottom p) b Hb).
  reflexivity.
Qed.

Lemma bottom_loop_any_shl next next' (topNext : Puzzle) (a : Z) (moves : list Z) :
  (forall q m, next q m = next' q m) ->
  bottom_loop f next topNext a moves = bottom_loop g next' topNext a moves.
Proof.
  intros Hnext. unfold bottom_loop. apply for_each_ext. intros b Hb.
  cbv beta zeta.
  rewrite (turn_any_shl (clone topNext) 0 (to_int b))
    by (try (left; reflexivity); apply MOVES_in_range; exact Hb).
  destruct (canSliceBottom _); cbn [negb]; [| reflexivity].
  destruct (slice _) as [[u | what] sliced]; [| reflexivity].
  rewrite Hnext. reflexivity.
Qed.

Lemma top_loop_any_shl next next' (p : Puzzle) (moves : list Z) :
  (forall q m, next q m = next' q m) ->
  top_loop f next p moves = top_loop g next' p moves.
Proof.
  intros Hnext. unfold top_loop. apply for_each_ext. intros a Ha.
  cbv beta zeta.
  rewrite (turn_any_shl (clone p) (to_int a) 0)
    by (try (left; reflexivity); apply MOVES_in_range; exact Ha).
  destruct (canSliceTop _); cbn [negb]; [| reflexivity].
  apply bottom_loop_any_shl. exact Hnext.
Qed.

Lemma solve_levels_any_shl (levels : nat) :
  forall p moves depth,
    solve_levels f levels p moves depth = solve_levels g levels p moves depth.
Proof.
  induction levels as [| levels IH]; intros p moves depth; cbn [solve_levels].
  - destruct (depth >? 8); reflexivity.
  - destruct (depth >? 8); [reflexivity |].
    apply top_loop_any_shl. intros q m. apply IH.
Qed.

(** X17: The search never turns by an amount at which [turnRow] shifts out of
    range: every amount of [MOVES] is 0 or no multiple of 18, so [solve]
    and the tasks of [solveMultithread] do the same whatever a shift by
    the full width yields. *)
Theorem search_independent_of_full_width_shift :
  Forall (fun a => shifts_in_range (to_int a)) MOVES
  /\ (forall p moves depth, solve f p moves depth = solve g p moves depth)
  /\ (forall start baseMoves,
         solveMultithread_tasks f start baseMoves
         = solveMultithread_tasks g start baseMoves).
Proof.
  split; [apply Forall_forall; exact MOVES_in_range |]. split.
  - intros p moves depth. apply solve_levels_any_shl.
  - intros start baseMoves. unfold solveMultithread_tasks.
    apply flat_map_agree. intros a Ha. cbv beta zeta.
    rewrite (turn_any_shl (clone start) (to_int a) 0)
      by (try (left; reflexivity); apply MOVES_in_range; exact Ha).
    destruct (canSliceTop _); cbn [negb]; [| reflexivity].
    rewrite (bottom_loop_any_shl (fun q m => solve f q m 1) (fun q m => solve g q m 1));
      [reflexivity |].
    intros q m. apply solve_levels_any_shl.
Qed.

End AnyShift.

(** ** The formatter *)

Lemma collapse_noop_runs_real (odd_run : bool) (moves : list Z) :
  filter (fun m => negb (m =? 0)) (collapse_noop_runs odd_run moves)
  = filter (fun m => negb (m =? 0)) moves.
Proof.
  revert odd_run. induction moves as [| m moves IH]; intros odd_run.
  - destruct odd_run; reflexivity.
  - cbn [collapse_noop_runs]. destruct (Z.eqb_spec m 0) as [-> | Hm].
    + rewrite IH. reflexivity.
    + rewrite filter_app. cbn [filter].
      destruct (Z.eqb_spec m 0); [contradiction |]. cbn [negb].
      rewrite IH. destruct odd_run; reflexivity.
Qed.

Lemma collapse_noop_runs_length (odd_run : bool) (moves : list Z) :
  (length (collapse_noop_runs odd_run moves) <= (if odd_run then 1 else 0) + length moves)%nat.
Proof.
  revert odd_run. induction moves as [| m moves IH]; intros odd_run.
  - destruct odd_run; simpl; lia.
  - cbn [collapse_noop_runs]. destruct (m =? 0).
    + specialize (IH (negb odd_run)). destruct odd_run; simpl in *; lia.
    + specialize (IH false). rewrite length_app. destruct odd_run; simpl in *; lia.
Qed.

Lemma collapse_noop_runs_incl (odd_run : bool) (moves : list Z) :
  Forall (fun m => m = 0 \/ In m moves) (collapse_noop_runs odd_run moves).
Proof.
  revert odd_run. induction moves as [| m moves IH]; intros odd_run.
  - destruct odd_run; simpl; repeat constructor.
  - cbn [collapse_noop_runs]. destruct (m =? 0).
    + eapply Forall_impl; [| apply IH]. simpl. intros x [H | H]; auto.
    + apply Forall_app. split.
      * destruct odd_run; repeat constructor.
      * constructor; [right; left; reflexivity |].
        eapply Forall_impl; [| apply IH]. simpl. intros x [H | H]; auto.
Qed.

(** X18: The first loop of the formatter keeps every real move, once and in
    order: the nonzero entries of its result are the nonzero entries of its
    input; and its result is never longer than the input. *)
Theorem formatMoves_first_loop_keeps_real_moves :
  forall moves : list Z,
    exists ignoreZeroes,
      formatMoves_ignoreZeroes moves = Some ignoreZeroes
      /\ filter (fun m => negb (m =? 0)) ignoreZeroes
         = filter (fun m => negb (m =? 0)) moves
      /\ (length ignoreZeroes <= length moves)%nat.
Proof.
  intros moves. exists (collapse_noop_runs false moves).
  split; [| split].
  - unfold formatMoves_ignoreZeroes.
    apply (ignoreZeroes_loop_spec moves [] 0 []); [lia |].
    intros Hc. discriminate Hc.
  - apply collapse_noop_runs_real.
  - apply (collapse_noop_runs_length false).
Qed.

Lemma encoded_zero : encoded 0.
Proof. exists 0, 0. reflexivity. Qed.

Lemma encoded_decode (m : Z) :
  encoded m ->
  exists t b, 0 <= t < 18 /\ 0 <= b < 18 /\ m = 64 * t + b /\ decodeMove m = (t, b).
Proof.
  intros (t & b & ->).
  exists (wrapPositive (to_int t)), (wrapPositive (to_int b)).
  split; [apply wrapPositive_range |]. split; [apply wrapPositive_range |].
  split; [apply encodeMove_value |].
  rewrite encodeMove_packed. apply decode_packed; apply wrapPositive_range.
Qed.

Lemma wrapPositive_opposite_zero (t : Z) :
  0 <= t < 18 -> (wrapPositive (to_int (- t)) = 0 <-> t = 0).
Proof.
  intros Ht. rewrite to_int_small by lia. rewrite wrapPositive_mod.
  split; intros H; [| subst; reflexivity].
  Z.div_mod_to_equations. lia.
Qed.

(** Nothing undoes "no last move": an encoded move is never dropped
    against the initial [lastMove = 0]. *)
Lemma undoes_nothing (m : Z) : encoded m -> undoes_last 0 m = false.
Proof.
  intros Hm. destruct (encoded_decode m Hm) as (t & b & Ht & Hb & -> & Hdec).
  unfold undoes_last. change (decodeMove 0) with (0, 0). rewrite Hdec.
  destruct (Z.eqb_spec (64 * t + b) 0) as [H0 | Hnz]; [reflexivity |].
  cbn [negb andb].
  destruct (Z.eqb_spec 0 (wrapPositive (to_int (- t)))) as [H1 | H1]; [| reflexivity].
  destruct (Z.eqb_spec 0 (wrapPositive (to_int (- b)))) as [H2 | H2]; [| reflexivity].
  symmetry in H1, H2.
  pose proof (proj1 (wrapPositive_opposite_zero t Ht) H1).
  pose proof (proj1 (wrapPositive_opposite_zero b Hb) H2).
  lia.
Qed.

Lemma removelast_length (v : list Z) : v <> [] -> S (length (removelast v)) = length v.
Proof.
  intros Hv. destruct (exists_last Hv) as (v' & x & ->).
  rewrite removelast_last, length_app. simpl. lia.
Qed.

Lemma removelast_forall (P : Z -> Prop) (v : list Z) : Forall P v -> Forall P (removelast v).
Proof.
  intros H. destruct v as [| y v]; [constructor |].
  destruct (exists_last (l := y :: v) ltac:(discriminate)) as (v' & x & E).
  rewrite E in *. rewrite removelast_last. apply Forall_app in H. apply H.
Qed.

(** One pass on encoded entries: it never pops an empty vector; what it
    emits are nonzero entries of its input; and every drop costs two
    entries. *)
Lemma ignoreDuplicates_loop_spec (previousList : list Z) :
  forall (P : Z -> Prop) lastMove ignoreDuplicates madeNoChange,
    Forall encoded previousList ->
    (lastMove = 0 \/ ignoreDuplicates <> []) ->
    Forall P previousList -> Forall (fun m => P m /\ m <> 0) ignoreDuplicates ->
    exists out flag,
      ignoreDuplicates_loop previousList lastMove ignoreDuplicates madeNoChange
      = Some (out, flag)
      /\ Forall (fun m => P m /\ m <> 0) out
      /\ (length out + (if flag then 0 else if madeNoChange then 2 else 0)
          <= length ignoreDuplicates + length previousList)%nat.
Proof.
  induction previousList as [| m rest IH];
    intros P lastMove acc flag0 Henc Hlast HP Hacc.
  - exists acc, flag0. split; [reflexivity |]. split; [exact Hacc |].
    destruct flag0; simpl; lia.
  - inversion Henc as [| ? ? Hm Hrest]; subst.
    inversion HP as [| ? ? HPm HPrest]; subst.
    cbn [ignoreDuplicates_loop].
    destruct (Z.eqb_spec m 0) as [-> | Hnz].
    + destruct (IH P lastMove acc flag0 Hrest Hlast HPrest Hacc)
        as (out & flag & Heq & Hout & Hlen).
      exists out, flag. split; [exact Heq |]. split; [exact Hout |].
      cbn [length]. lia.
    + destruct (undoes_last lastMove m) eqn:Hundo.
      * assert (Hne : acc <> []).
        { destruct Hlast as [-> | Hne]; [| exact Hne].
          rewrite (undoes_nothing m Hm) in Hundo. discriminate Hundo. }
        destruct acc as [| y acc]; [contradiction |].
        cbn [pop_back].
        destruct (IH P 0 (removelast (y :: acc)) false Hrest (or_introl eq_refl) HPrest
                     (removelast_forall _ _ Hacc))
          as (out & flag & Heq & Hout & Hlen).
        exists out, flag. split; [exact Heq |]. split; [exact Hout |].
        pose proof (removelast_length (y :: acc) ltac:(discriminate)) as Hrl.
        cbn [length] in *. destruct flag, flag0; lia.
      * destruct (IH P m (push_back acc m) flag0 Hrest) as (out & flag & Heq & Hout & Hlen).
        -- right. unfold push_back. destruct acc; discriminate.
        -- exact HPrest.
        -- unfold push_back. apply Forall_app. split; [exact Hacc |].
           constructor; [split; assumption | constructor].
        -- exists out, flag. split; [exact Heq |]. split; [exact Hout |].
           unfold push_back in Hlen. rewrite length_app in Hlen.
           cbn [length] in *. lia.
Qed.

(** A pass that changes nothing emits the nonzero entries it visits, and
    does the same on them alone. *)
Lemma ignoreDuplicates_loop_quiet (previousList : list Z) :
  forall lastMove ignoreDuplicates out,
    ignoreDuplicates_loop previousList lastMove ignoreDuplicates true = Some (out, true) ->
    out = ignoreDuplicates ++ filter (fun m => negb (m =? 0)) previousList
    /\ ignoreDuplicates_loop (filter (fun m => negb (m =? 0)) previousList)
                             lastMove ignoreDuplicates true
       = Some (out, true).
Proof.
  assert (Hfalse : forall l last acc out,
             ignoreDuplicates_loop l last acc false <> Some (out, true)).
  { induction l as [| m l IH]; intros last acc out; cbn [ignoreDuplicates_loop].
    - intros H. discriminate H.
    - destruct (m =? 0); [apply IH |].
      destruct (undoes_last last m); [| apply IH].
      destruct (pop_back acc); [apply IH | discriminate]. }
  induction previousList as [| m rest IH]; intros lastMove acc out Hloop.
  - cbn [ignoreDuplicates_loop] in Hloop. injection Hloop as <-.
    split; [rewrite app_nil_r |]; reflexivity.
  - cbn [ignoreDuplicates_loop filter] in *.
    destruct (Z.eqb_spec m 0) as [-> | Hnz]; cbn [negb].
    + apply IH. exact Hloop.
    + cbn [ignoreDuplicates_loop].
      destruct (Z.eqb_spec m 0); [contradiction |].
      destruct (undoes_last lastMove m).
      * destruct (pop_back acc); [| discriminate Hloop].
        exfalso. exact (Hfalse _ _ _ _ Hloop).
      * destruct (IH m (push_back acc m) out Hloop) as [Hout Hagain].
        split; [| exact Hagain].
        rewrite Hout. unfold push_back. rewrite <- app_assoc. reflexivity.
Qed.

Lemma filter_nonzero_id (l : list Z) :
  Forall (fun m => m <> 0) l -> filter (fun m => negb (m =? 0)) l = l.
Proof.
  induction 1 as [| m l Hm _ IH]; cbn [filter]; [reflexivity |].
  destruct (Z.eqb_spec m 0); [contradiction |]. cbn [negb]. rewrite IH. reflexivity.
Qed.

Lemma cancel_passes_spec (fuel : nat) :
  forall (P : Z -> Prop) previousList,
    (length previousList < fuel)%nat ->
    Forall encoded previousList -> Forall P previousList ->
    exists out,
      cancel_passes fuel previousList = Some out
      /\ Forall (fun m => P m /\ m <> 0) out
      /\ (length out <= length previousList)%nat
      /\ ignoreDuplicates_loop out 0 [] true = Some (out, true).
Proof.
  induction fuel as [| fuel IH]; intros P l Hfuel Henc HP; [lia |].
  cbn [cancel_passes].
  destruct (ignoreDuplicates_loop_spec l (fun m => P m /\ encoded m) 0 [] true Henc
              (or_introl eq_refl))
    as (out & flag & Heq & Hout & Hlen).
  { apply Forall_forall. intros m Hm. rewrite Forall_forall in HP, Henc. auto. }
  { constructor. }
  rewrite Heq. cbn [length] in Hlen.
  destruct flag.
  - exists out. split; [reflexivity |]. split; [| split; [lia |]].
    + eapply Forall_impl; [| exact Hout]. simpl. intros m [[H1 _] H2]. auto.
    + destruct (ignoreDuplicates_loop_quiet l 0 [] out Heq) as [Hfilter Hagain].
      cbn [app] in Hfilter. rewrite <- Hfilter in Hagain. exact Hagain.
  - destruct (IH P out) as (final & Hfinal & Hall & Hlen' & Hstable).
    + lia.
    + eapply Forall_impl; [| exact Hout]. simpl. intros m [[_ H] _]. exact H.
    + eapply Forall_impl; [| exact Hout]. simpl. intros m [[H _] _]. exact H.
    + exists final. split; [exact Hfinal |]. split; [exact Hall |].
      split; [lia | exact Hstable].
Qed.

Lemma ignoreDuplicates_loop_changed (l : list Z) :
  forall last acc out, ignoreDuplicates_loop l last acc false <> Some (out, true).
Proof.
  induction l as [| m l IH]; intros last acc out; cbn [ignoreDuplicates_loop].
  - intros H. discriminate H.
  - destruct (m =? 0); [apply IH |].
    destruct (undoes_last last m); [| apply IH].
    destruct (pop_back acc); [apply IH | discriminate].
Qed.

Lemma quiet_pass_adjacent (l : list Z) :
  forall last acc out,
    Forall (fun m => m <> 0) l ->
    ignoreDuplicates_loop l last acc true = Some (out, true) ->
    forall pre x y post, last :: l = pre ++ x :: y :: post -> undoes_last x y = false.
Proof.
  induction l as [| m rest IH]; intros last acc out Hnz Hloop pre x y post Hsplit.
  - destruct pre as [| ? [| ? ?]]; discriminate Hsplit.
  - inversion Hnz as [| ? ? Hm Hrest]; subst.
    cbn [ignoreDuplicates_loop] in Hloop.
    destruct (Z.eqb_spec m 0); [contradiction |].
    destruct (undoes_last last m) eqn:Hundo.
    + destruct (pop_back acc); [| discriminate Hloop].
      exfalso. exact (ignoreDuplicates_loop_changed _ _ _ _ Hloop).
    + destruct pre as [| z pre].
      * injection Hsplit as <- <- _. exact Hundo.
      * injection Hsplit as _ Hsplit.
        exact (IH m (push_back acc m) out Hrest Hloop pre x y post Hsplit).
Qed.

(** X19: On a list of encoded moves the formatter's two loops always produce a
    list: the second loop never pops an empty vector and stops after at
    most as many passes as there are entries.  The list it prints is made
    of nonzero entries of the input, is never longer than the input, and
    is settled: no entry undoes the entry before it, so one more pass would
    change nothing. *)
Theorem formatMoves_list_settles :
  forall moves : list Z,
    Forall encoded moves ->
    exists printed,
      formatMoves_list moves = Some printed
      /\ Forall (fun m => In m moves /\ m <> 0) printed
      /\ (length printed <= length moves)%nat
      /\ (forall pre x y post, printed = pre ++ x :: y :: post -> undoes_last x y = false)
      /\ ignoreDuplicates_loop printed 0 [] true = Some (printed, true).
Proof.
  intros moves Henc. unfold formatMoves_list.
  assert (Hfirst : formatMoves_ignoreZeroes moves = Some (collapse_noop_runs false moves)).
  { unfold formatMoves_ignoreZeroes.
    apply (ignoreZeroes_loop_spec moves [] 0 []); [lia |].
    intros Hc. discriminate Hc. }
  rewrite Hfirst.
  pose proof (collapse_noop_runs_incl false moves) as Hincl.
  pose proof (collapse_noop_runs_length false moves) as Hlen. cbn [Nat.add] in Hlen.
  destruct (cancel_passes_spec (S (length (collapse_noop_runs false moves)))
              (fun m => m = 0 \/ In m moves) (collapse_noop_runs false moves))
    as (printed & Hprinted & Hall & Hlen' & Hstable).
  - lia.
  - eapply Forall_impl; [| exact Hincl]. simpl. intros m [-> | Hin].
    + exact encoded_zero.
    + rewrite Forall_forall in Henc. apply Henc. exact Hin.
  - exact Hincl.
  - exists printed. split; [exact Hprinted |].
    assert (Hnz : Forall (fun m => m <> 0) printed)
      by (eapply Forall_impl; [| exact Hall]; simpl; intros m [_ H]; exact H).
    split; [| split; [lia | split; [| exact Hstable]]].
    + eapply Forall_impl; [| exact Hall]. simpl. intros m [[H0 | Hin] Hm].
      * contradiction.
      * split; assumption.
    + intros pre x y post Hsplit.
      apply (quiet_pass_adjacent printed 0 [] printed Hnz Hstable (0 :: pre) x y post).
      rewrite Hsplit. reflexivity.
Qed.

Lemma formatMoves_list_settles_witness :
  exists printed,
    formatMoves_list [encodeMove 3 0; encodeMove 15 0; encodeMove 0 0; encodeMove 1 0]
    = Some printed
    /\ Forall (fun m => In m [encodeMove 3 0; encodeMove 15 0; encodeMove 0 0; encodeMove 1 0]
                        /\ m <> 0) printed
    /\ (length printed <= 4)%nat
    /\ (forall pre x y post, printed = pre ++ x :: y :: post -> undoes_last x y = false)
    /\ ignoreDuplicates_loop printed 0 [] true = Some (printed, true).
Proof.
  apply (formatMoves_list_settles
           [encodeMove 3 0; encodeMove 15 0; encodeMove 0 0; encodeMove 1 0]).
  repeat constructor.
  - exists 3, 0. reflexivity.
  - exists 15, 0. reflexivity.
  - exists 0, 0. reflexivity.
  - exists 1, 0. reflexivity.
Defined.

(** ** The solved rows *)

Lemma solved_slot_0_alone (row : Row) (j : Z) :
  row = SOLVED_TOP \/ row = SOLVED_BOTTOM ->
  1 <= j < 18 -> row_slot row j <> row_slot row 0.
Proof.
  intros Hrow Hj.
  assert (H : In j (map Z.of_nat (seq 1 17)))
    by (apply in_map_iff; exists (Z.to_nat j); split; [lia | apply in_seq; lia]).
  simpl in H.
  destruct Hrow as [-> | ->];
    repeat (destruct H as [<- | H]; [vm_compute; discriminate |]); contradiction.
Qed.

Section SolvedRows.

Variable shl_oob : Row -> Z -> Z.

Lemma solved_row_turned (row : Row) (slots : Z) :
  row = SOLVED_TOP \/ row = SOLVED_BOTTOM ->
  shifts_in_range slots ->
  turnRow shl_oob row slots = row -> slots = 0.
Proof.
  intros Hrow Hs Heq.
  destruct Hs as [H0 | Hm]; [exact H0 | exfalso].
  assert (Hclean : row_clean row)
    by (destruct Hrow as [-> | ->]; split; (discriminate || reflexivity)).
  pose proof (turnRow_slot shl_oob row slots 0 Hclean (or_intror Hm) ltac:(lia)) as Hslot.
  rewrite Heq in Hslot.
  apply (solved_slot_0_alone row ((0 - slots) mod 18) Hrow); [| symmetry; exact Hslot].
  Z.div_mod_to_equations. lia.
Qed.

(** X20: The solved puzzle is solved in one position only: after [turn] from
    the default puzzle, at amounts at which [turnRow] shifts within the
    width of a row, [isSolved] holds exactly when both amounts are 0. *)
Theorem turned_solved_puzzle_is_solved_iff :
  forall topTurns bottomTurns : Z,
    shifts_in_range topTurns -> shifts_in_range bottomTurns ->
    (isSolved (snd (turn shl_oob topTurns bottomTurns Puzzle_default)) = true
     <-> topTurns = 0 /\ bottomTurns = 0).
Proof.
  intros a b Ha Hb. rewrite isSolved_rows. cbn [turn snd top bottom Puzzle_default].
  split.
  - intros [Ht Hbot]. split.
    + apply (solved_row_turned SOLVED_TOP a); [left; reflexivity | exact Ha | exact Ht].
    + apply (solved_row_turned SOLVED_BOTTOM b); [right; reflexivity | exact Hb | exact Hbot].
  - intros [-> ->]. split; reflexivity.
Qed.

End SolvedRows.

Lemma turned_solved_puzzle_is_solved_iff_witness :
  isSolved (snd (turn shl_count_masked 0 0 Puzzle_default)) = true.
Proof.
  apply (turned_solved_puzzle_is_solved_iff shl_count_masked 0 0).
  - left. reflexivity.
  - left. reflexivity.
  - split; reflexivity.
Defined.

(** ** Moves only rearrange the slots *)

Lemma printRow_slots_length (row : Row) : length (printRow_slots row) = 18%nat.
Proof. reflexivity. Qed.

Lemma printRow_slots_nth (row : Row) (i : nat) :
  (i < 18)%nat -> nth i (printRow_slots row) 0 = row_slot row (Z.of_nat i).
Proof.
  intros Hi. unfold printRow_slots. change (Z.to_nat SLOTS_PER_ROW) with 18%nat.
  set (g := fun i : nat => row_slot row (Z.of_nat i)).
  rewrite (nth_indep (map g (seq 0 18)) 0 (g 0%nat))
    by (rewrite length_map, length_seq; exact Hi).
  rewrite (map_nth g), seq_nth by exact Hi. reflexivity.
Qed.

Lemma printRow_slots_halves (row : Row) :
  printRow_slots row
  = map (fun i => row_slot row (Z.of_nat i)) (seq 0 9)
    ++ map (fun i => row_slot row (Z.of_nat i)) (seq 9 9).
Proof. reflexivity. Qed.

Lemma swap_top_slots (t b : Row) :
  printRow_slots (swap_top t b)
  = map (fun i => row_slot b (Z.of_nat i)) (seq 0 9)
    ++ map (fun i => row_slot t (Z.of_nat i)) (seq 9 9).
Proof.
  rewrite printRow_slots_halves. f_equal; apply map_ext_in; intros i Hi;
    apply in_seq in Hi; rewrite swap_top_slot by lia.
  - destruct (Z.ltb_spec (Z.of_nat i) 9); [reflexivity | lia].
  - destruct (Z.ltb_spec (Z.of_nat i) 9); [lia | reflexivity].
Qed.

Lemma slice_permutes_slots (p : Puzzle) :
  Permutation (puzzle_slots (snd (slice p))) (puzzle_slots p).
Proof.
  destruct (canSlice p) eqn:Hc.
  - rewrite (slice_returns p Hc). unfold puzzle_slots. cbn [snd top bottom].
    rewrite !swap_top_slots, (printRow_slots_halves (top p)),
      (printRow_slots_halves (bottom p)).
    rewrite <- !app_assoc.
    etransitivity; [apply Permutation_app_head, Permutation_app_swap_app |].
    etransitivity; [apply Permutation_app_swap_app |].
    apply Permutation_app_head, Permutation_app_swap_app.
  - rewrite (slice_throws p Hc). reflexivity.
Qed.

Section Rearranged.

Variable shl_oob : Row -> Z -> Z.

Lemma turnRow_permutes_slots (row : Row) (slots : Z) :
  row_clean row -> shifts_in_range slots ->
  Permutation (printRow_slots (turnRow shl_oob row slots)) (printRow_slots row).
Proof.
  intros Hrow Hs.
  set (from := fun i : nat =>
                 if (i <? 18)%nat then Z.to_nat ((Z.of_nat i - slots) mod 18) else i).
  assert (Hfrom : forall i, (i < 18)%nat ->
                            Z.of_nat (from i) = (Z.of_nat i - slots) mod 18).
  { intros i Hi. unfold from. destruct (Nat.ltb_spec i 18); [| lia].
    pose proof (Z.mod_pos_bound (Z.of_nat i - slots) 18 ltac:(lia)). lia. }
  assert (Hbound : forall i, (i < 18)%nat -> (from i < 18)%nat).
  { intros i Hi. pose proof (Hfrom i Hi).
    pose proof (Z.mod_pos_bound (Z.of_nat i - slots) 18 ltac:(lia)). lia. }
  assert (Hinj : Finite.Injective from).
  { intros i j Heq.
    destruct (Nat.ltb_spec i 18) as [Hi | Hi], (Nat.ltb_spec j 18) as [Hj | Hj].
    - pose proof (Hfrom i Hi). pose proof (Hfrom j Hj).
      assert (Hmod : (Z.of_nat i - slots) mod 18 = (Z.of_nat j - slots) mod 18) by lia.
      clear - Hmod Hi Hj. Z.div_mod_to_equations. lia.
    - pose proof (Hbound i Hi). unfold from in Heq at 2.
      destruct (Nat.ltb_spec j 18); lia.
    - pose proof (Hbound j Hj). unfold from in Heq at 1.
      destruct (Nat.ltb_spec i 18); lia.
    - unfold from in Heq.
      destruct (Nat.ltb_spec i 18), (Nat.ltb_spec j 18); lia. }
  unfold printRow_slots. change (Z.to_nat SLOTS_PER_ROW) with 18%nat.
  rewrite (map_ext_in (fun i => row_slot (turnRow shl_oob row slots) (Z.of_nat i))
                      (fun i => row_slot row (Z.of_nat (from i)))).
  - rewrite <- (map_map from (fun i => row_slot row (Z.of_nat i))).
    apply Permutation_map.
    exact (@nat_bijection_Permutation 18%nat from Hbound Hinj).
  - intros i Hi. apply in_seq in Hi.
    rewrite (turnRow_slot shl_oob row slots (Z.of_nat i) Hrow Hs) by lia.
    rewrite Hfrom by lia. reflexivity.
Qed.

Lemma turn_permutes_slots (p : Puzzle) (a b : Z) :
  puzzle_clean p -> shifts_in_range a -> shifts_in_range b ->
  Permutation (puzzle_slots (snd (turn shl_oob a b p))) (puzzle_slots p).
Proof.
  intros [Ht Hb] Ha Hc. unfold puzzle_slots. cbn [turn snd top bottom].
  apply Permutation_app; apply turnRow_permutes_slots; assumption.
Qed.

(** X21: Turns and slices only rearrange the 36 slots of a puzzle: on rows
    with no bit above 107 and amounts at which [turnRow] shifts within the
    width of a row, the slots after [turn], after [slice] and after [move]
    (whether its slice returns or throws) are a permutation of the slots
    before.  No piece is lost, duplicated or altered. *)
Theorem moves_rearrange_slots :
  forall (p : Puzzle) (topTurns bottomTurns : Z),
    puzzle_clean p -> shifts_in_range topTurns -> shifts_in_range bottomTurns ->
    Permutation (puzzle_slots (snd (turn shl_oob topTurns bottomTurns p))) (puzzle_slots p)
    /\ Permutation (puzzle_slots (snd (slice p))) (puzzle_slots p)
    /\ Permutation (puzzle_slots (snd (move shl_oob topTurns bottomTurns p))) (puzzle_slots p).
Proof.
  intros p a b Hp Ha Hb.
  split; [apply turn_permutes_slots; assumption |].
  split; [apply slice_permutes_slots |].
  rewrite move_state.
  etransitivity; [apply slice_permutes_slots | apply turn_permutes_slots; assumption].
Qed.

End Rearranged.

Lemma moves_rearrange_slots_witness :
  Permutation (puzzle_slots (snd (move shl_count_masked 3 15 Puzzle_default)))
              (puzzle_slots Puzzle_default).
Proof.
  apply (moves_rearrange_slots shl_count_masked Puzzle_default 3 15).
  - split; (split; [discriminate | reflexivity]).
  - right. discriminate.
  - right. discriminate.
Defined.
